(** * Spin Cycle: the chain traversal core and the [find] filter parser

    A shallow embedding of [job-runner/chain/chain.go] and of the argument
    loop of [spinc/cmd/find.go], with the properties the specification
    states about them.

    Conventions of the embedding:
    - a Go [uint] is an [N] and a Go [int] a [Z]; conversions and additions
      wrap at 64 bits and are written out ([go.uint_of_int], [go.int_add]);
    - a Go [byte] is a [Byte.byte];
    - a Go map is a [gmap]; reading a missing key gives the zero value;
      the maps a chain holds are allocated maps, as [make] or the decoding
      of a snapshot gives them;
    - [for ... range m] visits the entries of [m] in an order the language
      leaves open, so every loop over a map takes the visiting order as a
      list, and the properties quantify over all of them ([go.ranges]);
    - a function that may panic returns an [go.outcome];
    - locks are not modelled: every method is one atomic step. *)

From Stdlib Require Import ZArith Lia Ascii.
From stdpp Require Import gmap strings list fin_maps.

#[global] Instance byte_eq_dec : EqDecision Byte.byte.
Proof.
intros a b. destruct (decide (Byte.to_N a = Byte.to_N b)) as [H|H].
- left. apply (f_equal Byte.of_N) in H. rewrite !Byte.of_to_N in H. congruence.
- right. congruence.
Defined.

(** ** Go values *)
Module go.
Local Open Scope Z_scope.

(** The result of a call: it returns a value or it panics. *)
Inductive outcome (A : Type) : Type :=
| Return (a : A)
| Panic.
Arguments Return {A} a.
Arguments Panic {A}.

(** Width of [int] and [uint], on a 64-bit platform. *)
Definition intSize : Z := 64.

(** [uint(i)] for an integer [i]: the value modulo 2^64. *)
Definition uint_of_int (i : Z) : N := Z.to_N (i mod 2 ^ intSize).

(** The two's complement reading of an integer as an [int]. *)
Definition wrap_int (i : Z) : Z :=
  (i + 2 ^ (intSize - 1)) mod 2 ^ intSize - 2 ^ (intSize - 1).

(** [int(u)] for a [uint] [u]. *)
Definition int_of_uint (u : N) : Z := wrap_int (Z.of_N u).

(** [a + b] on [int]. *)
Definition int_add (a b : Z) : Z := wrap_int (a + b).

(** [a + b] on [uint]. *)
Definition uint_add (a b : N) : N := uint_of_int (Z.of_N a + Z.of_N b).

(** The values an [int] can hold. *)
Definition is_int (i : Z) : Prop := - 2 ^ (intSize - 1) <= i < 2 ^ (intSize - 1).

(** [order] is one of the orders in which [range m] may visit [m]. *)
Definition ranges {V : Type} (m : gmap string V) (order : list (string * V)) : Prop :=
  order ≡ₚ map_to_list m.

End go.

(** ** The [proto] package: jobs and job chains *)
Module proto.

Module Job.

(** Modelled from the spec: the [proto.Job] struct, whose declaration is
    not among the sources.  The fields are the ones the chain reads or
    writes.  [Data] is a Go map and may be nil ([None]); its values are
    opaque to the chain and kept as strings. *)
Record t : Type := mk {
  Id : string;
  State : Byte.byte;
  SequenceId : string;
  SequenceRetry : N;
  Retry : N;
  Data : option (gmap string string)
}.

(** The zero value [proto.Job{}], read from a map at a missing key. *)
Definition zero : t := mk "" Byte.x00 "" 0 0 None.

(** [j.State = s] on a copy of [j]. *)
Definition withState (j : t) (s : Byte.byte) : t :=
  mk (Id j) s (SequenceId j) (SequenceRetry j) (Retry j) (Data j).

(** [j.Data = d] on a copy of [j]. *)
Definition withData (j : t) (d : option (gmap string string)) : t :=
  mk (Id j) (State j) (SequenceId j) (SequenceRetry j) (Retry j) d.

End Job.

Module JobChain.

(** Modelled from the spec: the [proto.JobChain] struct, whose declaration
    is not among the sources. *)
Record t : Type := mk {
  RequestId : string;
  Jobs : gmap string Job.t;
  AdjacencyList : gmap string (list string);
  State : Byte.byte;
  FinishedJobs : N
}.

End JobChain.

(** The job states the chain switches on.  The constants are declared in
    the [proto] package, which is not among the sources: their values
    are parameters of the development. *)
Class States : Type := {
  STATE_UNKNOWN : Byte.byte;
  STATE_PENDING : Byte.byte;
  STATE_RUNNING : Byte.byte;
  STATE_COMPLETE : Byte.byte;
  STATE_FAIL : Byte.byte;
  STATE_STOPPED : Byte.byte
}.

(** The six constants are the cases of one [switch] in [IsDoneRunning],
    which Go compiles only if they are pairwise different. *)
Definition distinct (S : States) : Prop :=
  NoDup [STATE_UNKNOWN; STATE_PENDING; STATE_RUNNING;
         STATE_COMPLETE; STATE_FAIL; STATE_STOPPED].

#[global] Instance distinct_dec (S : States) : Decision (distinct S).
Proof. unfold distinct. apply _. Defined.

End proto.

(** ** The [chain] package *)
Module chain.
Import go proto.

(** What a [Chain] denotes: the job chain it points to and the three try
    maps it refers to.  (The [Chain] struct itself, which holds them by
    reference, is [shared.Chain] below.) *)
Record Chain : Type := mkChain {
  jobChain : JobChain.t;
  sequenceTries : gmap string N;
  latestRunJobTries : gmap string N;
  totalJobTries : gmap string N
}.

(** [jobs[id]] and [tries[id]]: a missing key reads as the zero value. *)
Definition job (jobs : gmap string Job.t) (id : string) : Job.t :=
  default Job.zero (jobs !! id).

Definition tries (m : gmap string N) (id : string) : N :=
  default 0%N (m !! id).

(** [c.jobChain.Jobs], [c.jobChain.AdjacencyList]. *)
Definition Jobs (c : Chain) : gmap string Job.t := JobChain.Jobs (jobChain c).
Definition AdjacencyList (c : Chain) : gmap string (list string) :=
  JobChain.AdjacencyList (jobChain c).

(** Writing one field of the chain. *)
Definition withJobChain (c : Chain) (jc : JobChain.t) : Chain :=
  mkChain jc (sequenceTries c) (latestRunJobTries c) (totalJobTries c).

Definition withJobs (c : Chain) (jobs : gmap string Job.t) : Chain :=
  withJobChain c
    (JobChain.mk (JobChain.RequestId (jobChain c)) jobs
       (JobChain.AdjacencyList (jobChain c)) (JobChain.State (jobChain c))
       (JobChain.FinishedJobs (jobChain c))).

Definition withSequenceTries (c : Chain) (m : gmap string N) : Chain :=
  mkChain (jobChain c) m (latestRunJobTries c) (totalJobTries c).

Definition withLatestRunJobTries (c : Chain) (m : gmap string N) : Chain :=
  mkChain (jobChain c) (sequenceTries c) m (totalJobTries c).

Definition withTotalJobTries (c : Chain) (m : gmap string N) : Chain :=
  mkChain (jobChain c) (sequenceTries c) (latestRunJobTries c) m.

(** [contains] returns whether or not a slice of strings contains a
    specific string. *)
Fixpoint contains (s : list string) (t : string) : bool :=
  match s with
  | [] => false
  | i :: s' => if decide (i = t) then true else contains s' t
  end.

(** The loop of [NextJobs] over the ids adjacent to the job. *)
Fixpoint NextJobs_loop (jobs : gmap string Job.t) (nextJobIds : list string) : list Job.t :=
  match nextJobIds with
  | [] => []
  | id :: rest =>
      match jobs !! id with
      | Some val => val :: NextJobs_loop jobs rest
      | None => NextJobs_loop jobs rest
      end
  end.

(** [NextJobs] finds all of the jobs adjacent to the given job. *)
Definition NextJobs (c : Chain) (jobId : string) : list Job.t :=
  match AdjacencyList c !! jobId with
  | Some nextJobIds => NextJobs_loop (Jobs c) nextJobIds
  | None => []
  end.

(** The loop of [previousJobs] over the adjacency list, visited in the
    order [adj]. *)
Fixpoint previousJobs_loop (jobs : gmap string Job.t)
    (adj : list (string * list string)) (jobId : string) : list Job.t :=
  match adj with
  | [] => []
  | (curJob, nextJobs) :: rest =>
      if contains nextJobs jobId then
        match jobs !! curJob with
        | Some val => val :: previousJobs_loop jobs rest jobId
        | None => previousJobs_loop jobs rest jobId
        end
      else previousJobs_loop jobs rest jobId
  end.

(** [previousJobs] finds all of the immediately previous jobs to a given
    job, the adjacency list being visited in the order [adj]. *)
Definition previousJobs_in (adj : list (string * list string)) (c : Chain)
    (jobId : string) : list Job.t :=
  previousJobs_loop (Jobs c) adj jobId.

Definition previousJobs (c : Chain) (jobId : string) : list Job.t :=
  previousJobs_in (map_to_list (AdjacencyList c)) c jobId.

Section WithStates.
Context {S : States}.

(** The loop of [isRunnable] over the previous jobs. *)
Fixpoint isRunnable_loop (prev : list Job.t) : bool :=
  match prev with
  | [] => true
  | j :: rest =>
      if decide (Job.State j ≠ STATE_COMPLETE) then false
      else isRunnable_loop rest
  end.

(** [isRunnable] returns true if the job is runnable.  A job is runnable
    iff its state is PENDING and all immediately previous jobs are state
    COMPLETE.  The adjacency list is visited in the order [adj]; the
    result is the same for all of them ([isRunnable_in_order]). *)
Definition isRunnable_in (adj : list (string * list string)) (c : Chain)
    (jobId : string) : bool :=
  let j := job (Jobs c) jobId in
  if decide (Job.State j ≠ STATE_PENDING) then false
  else isRunnable_loop (previousJobs_in adj c jobId).

Definition isRunnable (c : Chain) (jobId : string) : bool :=
  isRunnable_in (map_to_list (AdjacencyList c)) c jobId.

(** [IsRunnable] is [isRunnable] under the read lock. *)
Definition IsRunnable (c : Chain) (jobId : string) : bool := isRunnable c jobId.

(** The loop of [RunnableJobs] over the jobs, visited in the order
    [order]. *)
Fixpoint RunnableJobs_loop (c : Chain) (order : list (string * Job.t)) : list Job.t :=
  match order with
  | [] => []
  | (jobId, j) :: rest =>
      if negb (IsRunnable c jobId) then RunnableJobs_loop c rest
      else j :: RunnableJobs_loop c rest
  end.

Definition RunnableJobs_in (order : list (string * Job.t)) (c : Chain) : list Job.t :=
  RunnableJobs_loop c order.

Definition RunnableJobs (c : Chain) : list Job.t :=
  RunnableJobs_in (map_to_list (Jobs c)) c.

(** [sequenceStartJob] and [SequenceStartJob]. *)
Definition sequenceStartJob (c : Chain) (jobId : string) : Job.t :=
  job (Jobs c) (Job.SequenceId (job (Jobs c) jobId)).

Definition SequenceStartJob (c : Chain) (jobId : string) : Job.t :=
  job (Jobs c) (Job.SequenceId (job (Jobs c) jobId)).

Definition IsSequenceStartJob (c : Chain) (jobId : string) : bool :=
  bool_decide (jobId = Job.SequenceId (job (Jobs c) jobId)).

(** [canRetrySequence] and [CanRetrySequence]. *)
Definition canRetrySequence (c : Chain) (jobId : string) : bool :=
  let sequenceStartJob := sequenceStartJob c jobId in
  bool_decide (tries (sequenceTries c) (Job.Id sequenceStartJob)
               ≤ Job.SequenceRetry sequenceStartJob)%N.

Definition CanRetrySequence (c : Chain) (jobId : string) : bool :=
  let sequenceStartJob := SequenceStartJob c jobId in
  bool_decide (tries (sequenceTries c) (Job.Id sequenceStartJob)
               ≤ Job.SequenceRetry sequenceStartJob)%N.

(** The loop of [IsDoneRunning] over the jobs still to visit, [complete]
    being the value of the variable of that name. *)
Fixpoint IsDoneRunning_loop (c : Chain) (jobs : list Job.t) (complete : bool)
    : outcome (bool * bool) :=
  match jobs with
  | [] => Return (true, complete)
  | j :: rest =>
      if decide (Job.State j = STATE_COMPLETE) then
        IsDoneRunning_loop c rest complete
      else if decide (Job.State j = STATE_RUNNING) then
        Return (false, false)
      else if decide (Job.State j = STATE_STOPPED) then
        IsDoneRunning_loop c rest false
      else if decide (Job.State j = STATE_PENDING) then
        if isRunnable c (Job.Id j) then Return (false, false)
        else IsDoneRunning_loop c rest false
      else if decide (Job.State j = STATE_FAIL ∨ Job.State j = STATE_UNKNOWN) then
        if canRetrySequence c (Job.Id j) then Return (false, false)
        else IsDoneRunning_loop c rest false
      else Panic
  end.

(** [IsDoneRunning] returns two booleans: [done] indicates if there are
    running or runnable jobs, and [complete] indicates if all jobs
    finished successfully.  The jobs are visited in the order [order]. *)
Definition IsDoneRunning_in (order : list (string * Job.t)) (c : Chain)
    : outcome (bool * bool) :=
  IsDoneRunning_loop c (order.*2) true.

Definition IsDoneRunning (c : Chain) : outcome (bool * bool) :=
  IsDoneRunning_in (map_to_list (Jobs c)) c.

(** The loop of [FailedJobs], [n] being the count so far. *)
Fixpoint FailedJobs_loop (jobs : list Job.t) (n : N) : N :=
  match jobs with
  | [] => n
  | j :: rest =>
      if decide (Job.State j = STATE_FAIL ∨ Job.State j = STATE_UNKNOWN)
      then FailedJobs_loop rest (uint_add n 1)
      else FailedJobs_loop rest n
  end.

Definition FailedJobs_in (order : list (string * Job.t)) (c : Chain) : N :=
  FailedJobs_loop (order.*2) 0.

Definition FailedJobs (c : Chain) : N := FailedJobs_in (map_to_list (Jobs c)) c.

End WithStates.

(** [IncrementJobTries]: the total only grows; the count for the current
    sequence try follows [delta] and must not become negative.  The chain
    returned with [Panic] is the one the panic leaves behind. *)
Definition IncrementJobTries (c : Chain) (jobId : string) (delta : Z)
    : Chain * outcome unit :=
  let c1 :=
    if decide (0 < delta)%Z then
      withTotalJobTries c
        (<[jobId := uint_add (tries (totalJobTries c) jobId) (uint_of_int delta)]>
           (totalJobTries c))
    else c in
  let cur := int_of_uint (tries (latestRunJobTries c1) jobId) in
  if decide (int_add cur delta < 0)%Z then (c1, Panic)
  else
    (withLatestRunJobTries c1
       (<[jobId := uint_of_int (int_add cur delta)]> (latestRunJobTries c1)),
     Return tt).

Definition JobTries (c : Chain) (jobId : string) : N * N :=
  (tries (latestRunJobTries c) jobId, tries (totalJobTries c) jobId).

Definition IncrementSequenceTries (c : Chain) (jobId : string) (delta : Z)
    : Chain * outcome unit :=
  let seqId := Job.SequenceId (job (Jobs c) jobId) in
  let cur := int_of_uint (tries (sequenceTries c) seqId) in
  (withSequenceTries c
     (<[seqId := uint_of_int (int_add cur delta)]> (sequenceTries c)),
   Return tt).

Definition SequenceTries (c : Chain) (jobId : string) : N :=
  let seqId := Job.SequenceId (job (Jobs c) jobId) in
  tries (sequenceTries c) seqId.

(** [IncrementFinishedJobs] increments the finished jobs count by delta.
    Negative delta is given on sequence retry. *)
Definition IncrementFinishedJobs (c : Chain) (delta : Z) : Chain * outcome unit :=
  let cur := int_of_uint (JobChain.FinishedJobs (jobChain c)) in
  if decide (int_add cur delta < 0)%Z then (c, Panic)
  else
    (withJobChain c
       (JobChain.mk (JobChain.RequestId (jobChain c)) (JobChain.Jobs (jobChain c))
          (JobChain.AdjacencyList (jobChain c)) (JobChain.State (jobChain c))
          (uint_of_int (int_add cur delta))),
     Return tt).

Definition FinishedJobs (c : Chain) : N := JobChain.FinishedJobs (jobChain c).

(** [RequestId] returns the request id of the job chain. *)
Definition RequestId (c : Chain) : string := JobChain.RequestId (jobChain c).

(** [JobState] returns the state of a given job. *)
Definition JobState (c : Chain) (jobId : string) : Byte.byte :=
  Job.State (job (Jobs c) jobId).

(** [SetState] sets the chain's state. *)
Definition SetState (c : Chain) (state : Byte.byte) : Chain :=
  withJobChain c
    (JobChain.mk (JobChain.RequestId (jobChain c)) (JobChain.Jobs (jobChain c))
       (JobChain.AdjacencyList (jobChain c)) state
       (JobChain.FinishedJobs (jobChain c))).

(** [State] returns the chain's state. *)
Definition State (c : Chain) : Byte.byte := JobChain.State (jobChain c).

(** [SetJobState] sets the state of a job in the chain: the job is read
    from the map, its state field written, and the copy stored back. *)
Definition SetJobState (c : Chain) (jobId : string) (state : Byte.byte) : Chain :=
  let j := job (Jobs c) jobId in
  let j := Job.withState j state in
  withJobs c (<[jobId := j]> (Jobs c)).

(** The body of the loop of [NewChain]: a job without data gets an empty
    data map. *)
Definition NewChain_job (j : Job.t) : Job.t :=
  if decide (Job.Data j = None) then Job.withData j (Some ∅) else j.

(** The loop of [NewChain] over the jobs, visited in the order [order];
    [jobs] is the map being written. *)
Fixpoint NewChain_loop (order : list (string * Job.t)) (jobs : gmap string Job.t)
    : gmap string Job.t :=
  match order with
  | [] => jobs
  | (jobName, j) :: rest => NewChain_loop rest (<[jobName := NewChain_job j]> jobs)
  end.

(** The chain once the loop of [NewChain] has run over all its jobs. *)
Definition resumed (c : Chain) : Chain := withJobs c (NewChain_job <$> Jobs c).

End chain.

(** ** Chains in the store

    [NewChain] keeps the job chain and the three maps it is given by
    reference, and [ToSuspended] hands the same references out again: the
    store makes this sharing explicit. *)
Module shared.
Import go proto.

Definition loc : Type := positive.

(** The objects chains refer to: job chains, try maps, and the number of
    mutexes allocated so far. *)
Record Store : Type := mkStore {
  jobChains : gmap loc JobChain.t;
  triesMaps : gmap loc (gmap string N);
  mutexes : loc
}.

(** The [Chain] struct: two mutexes, a pointer to the job chain, and three
    maps (references). *)
Record Chain : Type := mkChain {
  jobsMux : loc;
  jobChain : loc;
  triesMux : loc;
  sequenceTries : loc;
  latestRunJobTries : loc;
  totalJobTries : loc
}.

(** Modelled from the spec: the [proto.SuspendedJobChain] struct, whose
    declaration is not among the sources; the job chain and the maps are
    references. *)
Record SuspendedJobChain : Type := mkSuspendedJobChain {
  RequestId : string;
  JobChain : loc;
  TotalJobTries : loc;
  LatestRunJobTries : loc;
  SequenceTries : loc
}.

(** A map reference that holds no map (nil) reads as the empty map. *)
Definition triesAt (σ : Store) (l : loc) : gmap string N :=
  default ∅ (triesMaps σ !! l).

(** What the chain [c] denotes in the store [σ]; [None] when its job chain
    pointer is dangling. *)
Definition load (σ : Store) (c : Chain) : option chain.Chain :=
  jc ← jobChains σ !! jobChain c;
  Some (chain.mkChain jc (triesAt σ (sequenceTries c))
          (triesAt σ (latestRunJobTries c)) (triesAt σ (totalJobTries c))).

(** [NewChain] takes a job chain and maps of sequence and job tries, and
    turns them into a chain.  The jobs are visited in the order [order].
    A dangling [jc] panics. *)
Definition NewChain_in (order : list (string * Job.t)) (σ : Store) (jc : loc)
    (sequenceTries totalJobTries latestRunJobTries : loc)
    : outcome (Store * Chain) :=
  match jobChains σ !! jc with
  | None => Panic
  | Some v =>
      let v' :=
        JobChain.mk (JobChain.RequestId v)
          (chain.NewChain_loop order (JobChain.Jobs v))
          (JobChain.AdjacencyList v) (JobChain.State v) (JobChain.FinishedJobs v) in
      Return
        (mkStore (<[jc := v']> (jobChains σ)) (triesMaps σ) (mutexes σ + 2)%positive,
         mkChain (mutexes σ) jc (mutexes σ + 1)%positive
           sequenceTries latestRunJobTries totalJobTries)
  end.

(** [ToSuspended]: the request id by value, the rest by reference. *)
Definition ToSuspended (σ : Store) (c : Chain) : outcome SuspendedJobChain :=
  let seqTries := sequenceTries c in
  let totalJobTries := totalJobTries c in
  let latestTries := latestRunJobTries c in
  match jobChains σ !! jobChain c with
  | None => Panic
  | Some v =>
      Return
        (mkSuspendedJobChain (JobChain.RequestId v) (jobChain c)
           totalJobTries latestTries seqTries)
  end.

(** A method of the chain [c] called in the store [σ]: it works on what
    [c] denotes, and panics on a dangling job chain pointer. *)
Definition call {A : Type} (method : chain.Chain → A) (σ : Store) (c : Chain)
    : outcome A :=
  match load σ c with
  | Some v => Return (method v)
  | None => Panic
  end.

End shared.

(** ** The [find] command of [spinc] *)
Module cmd.
Import go proto.

(** The errors [Prepare] returns, one constructor per [fmt.Errorf]. *)
Inductive error : Type :=
| InvalidCommandArg (arg : string) (produced : nat)
| InvalidFilter (filter : string)
| FilterSpecifiedMultipleTimes (filter : string)
| InvalidState (state : string)
| InvalidTimeUTC (value : string)
| InvalidTimeForm (value : string)
| InvalidLimit (value : string)
| InvalidOffset (value : string).

Definition findLimitDefault : N := 10.
Definition findTimeFmt : string := "YYYY-MM-DD HH:MM:SS UTC".
Definition findTimeFmtStr : string := "2006-01-02 15:04:05 MST".

(** [strings.Index(s, substr)], counted from [i]: the index of the first
    instance of [substr] in [s], or -1. *)
Fixpoint Index_from (i : Z) (s substr : string) : Z :=
  if String.prefix substr s then i
  else
    match s with
    | EmptyString => (-1)%Z
    | String _ s' => Index_from (i + 1)%Z s' substr
    end.

Definition Index (s substr : string) : Z := Index_from 0 s substr.

Definition findUtcIndex : Z := Index findTimeFmt "UTC".

(** The text before and after the first [sep] in [s], if there is one. *)
Fixpoint cut (sep : ascii) (s : string) : option (string * string) :=
  match s with
  | EmptyString => None
  | String a s' =>
      if decide (a = sep) then Some (EmptyString, s')
      else
        match cut sep s' with
        | Some (before, after) => Some (String a before, after)
        | None => None
        end
  end.

(** [strings.SplitN(s, sep, 2)] for a one-byte separator: at most two
    substrings, the second being the unsplit remainder. *)
Definition SplitN_2 (s : string) (sep : ascii) : list string :=
  match cut sep s with
  | Some (before, after) => [before; after]
  | None => [s]
  end.

(** [strings.Split(s, sep)] for a one-byte separator. *)
Fixpoint Split (s : string) (sep : ascii) : list string :=
  match s with
  | EmptyString => [EmptyString]
  | String a s' =>
      if decide (a = sep) then EmptyString :: Split s' sep
      else
        match Split s' sep with
        | x :: xs => String a x :: xs
        | [] => [String a EmptyString]
        end
  end.

Definition validFilters : gmap string bool :=
  list_to_map
    [("type", true); ("states", true); ("user", true); ("since", true);
     ("until", true); ("limit", true); ("offset", true)].

(** [filters[name]]: a missing key reads as the empty string. *)
Definition filterValue (filters : gmap string string) (name : string) : string :=
  default EmptyString (filters !! name).

(** The parse loop of [Prepare] over the arguments still to read,
    [filters] being the map filled so far.  (The debug output of the loop
    is left out.) *)
Fixpoint Prepare_parse (args : list string) (filters : gmap string string)
    : error + gmap string string :=
  match args with
  | [] => inr filters
  | arg :: rest =>
      let split := SplitN_2 arg "="%char in
      match split with
      | [filter; value] =>
          if negb (default false (validFilters !! filter)) then
            inl (InvalidFilter filter)
          else if decide (is_Some (filters !! filter)) then
            inl (FilterSpecifiedMultipleTimes filter)
          else Prepare_parse rest (<[filter := value]> filters)
      | _ => inl (InvalidCommandArg arg (length split))
      end
  end.

(** The errors of the parse loop. *)
Definition isParseError (e : error) : Prop :=
  match e with
  | InvalidCommandArg _ _ | InvalidFilter _ | FilterSpecifiedMultipleTimes _ => True
  | _ => False
  end.

(** The names of the recognized filters. *)
Definition filterNames : list string :=
  ["type"; "states"; "user"; "since"; "until"; "limit"; "offset"].

(** The filter an argument names: the text before its first '='. *)
Definition filterName (arg : string) : option string :=
  fst <$> cut "="%char arg.

(** [arg] does not split on '=' into exactly two parts. *)
Definition malformed (arg : string) : Prop :=
  length (SplitN_2 arg "="%char) ≠ 2.

(** [arg] names a filter outside the recognized ones. *)
Definition unknownFilter (arg : string) : Prop :=
  ∃ filter, filterName arg = Some filter ∧ filter ∉ filterNames.

(** [arg] names a filter that one of the arguments [earlier] names. *)
Definition repeatedFilter (earlier : list string) (arg : string) : Prop :=
  ∃ filter arg', filterName arg = Some filter
                 ∧ arg' ∈ earlier ∧ filterName arg' = Some filter.

(** The map [filters] of the parse loop holds the filters that the
    arguments [earlier] name. *)
Definition holds (filters : gmap string string) (earlier : list string) : Prop :=
  ∀ filter, is_Some (filters !! filter) ↔
            ∃ arg', arg' ∈ earlier ∧ filterName arg' = Some filter.

(** One of the arguments is malformed, names an unknown filter, or repeats
    the filter of an argument before it. *)
Definition rejected (args : list string) : Prop :=
  ∃ i arg, args !! i = Some arg
           ∧ (malformed arg ∨ unknownFilter arg ∨ repeatedFilter (take i args) arg).

Section Prepare.

(** Library functions and the table of state names, which are not among
    the sources: [time.Time] with its zero value, [time.Parse],
    [strconv.ParseUint(s, 10, strconv.IntSize)] and [proto.StateValue]. *)
Variable Time : Type.
Variable zeroTime : Time.
Variable time_Parse : string → string → option Time.
Variable ParseUint : string → option N.
Variable StateValue : gmap string Byte.byte.

(** Modelled from the spec: the [proto.RequestFilter] struct, whose
    declaration is not among the sources. *)
Record RequestFilter : Type := mkRequestFilter {
  Type_ : string;
  States : list Byte.byte;
  User : string;
  Since : Time;
  Until : Time;
  Limit : N;
  Offset : N
}.

(** The loop over the state names given with [states=]. *)
Fixpoint Prepare_states (names : list string) (states : list Byte.byte)
    : error + list Byte.byte :=
  match names with
  | [] => inr states
  | state :: rest =>
      match StateValue !! state with
      | None => inl (InvalidState state)
      | Some val => Prepare_states rest (states ++ [val])
      end
  end.

(** The reading of [since=] and of [until=]. *)
Definition Prepare_time (value : string) : error + Time :=
  if decide (value ≠ EmptyString) then
    if decide (Index value "UTC" ≠ findUtcIndex) then inl (InvalidTimeUTC value)
    else
      match time_Parse findTimeFmtStr value with
      | None => inl (InvalidTimeForm value)
      | Some t => inr t
      end
  else inr zeroTime.

(** The second half of [Prepare]: the values of the filters are read and
    the request filter is built. *)
Definition Prepare_process (filters : gmap string string) : error + RequestFilter :=
  match
    (if decide (0 < String.length (filterValue filters "states"))%nat
     then Prepare_states (Split (filterValue filters "states") ","%char) []
     else inr [])
  with
  | inl e => inl e
  | inr states =>
  match Prepare_time (filterValue filters "since") with
  | inl e => inl e
  | inr since =>
  match Prepare_time (filterValue filters "until") with
  | inl e => inl e
  | inr until =>
  match
    (if decide (filterValue filters "limit" = EmptyString) then inr findLimitDefault
     else
       match ParseUint (filterValue filters "limit") with
       | None => inl (InvalidLimit (filterValue filters "limit"))
       | Some l => inr l
       end)
  with
  | inl e => inl e
  | inr limit =>
  match
    (if decide (filterValue filters "offset" ≠ EmptyString) then
       match ParseUint (filterValue filters "offset") with
       | None => inl (InvalidOffset (filterValue filters "offset"))
       | Some o => inr o
       end
     else inr 0%N)
  with
  | inl e => inl e
  | inr offset =>
      inr (mkRequestFilter (filterValue filters "type") states
             (filterValue filters "user") since until limit offset)
  end end end end end.

(** [Prepare] on the arguments of the command: the error it returns, or
    the request filter it stores. *)
Definition Prepare (args : list string) : error + RequestFilter :=
  match Prepare_parse args ∅ with
  | inl e => inl e
  | inr filters => Prepare_process filters
  end.

End Prepare.

End cmd.

(** ** Predicates of the specification *)
Module spec.
Import go proto chain.

Section WithStates.
Context {S : States}.

(** The six states a job may be in. *)
Definition isJobState (s : Byte.byte) : Prop :=
  s ∈ [STATE_PENDING; STATE_RUNNING; STATE_COMPLETE;
       STATE_FAIL; STATE_STOPPED; STATE_UNKNOWN].

#[global] Instance isJobState_dec (s : Byte.byte) : Decision (isJobState s).
Proof. unfold isJobState. apply _. Defined.

(** Every job of the chain is in one of the six states. *)
Definition validStates (c : Chain) : Prop :=
  map_Forall (λ _ j, isJobState (Job.State j)) (Jobs c).

#[global] Instance validStates_dec (c : Chain) : Decision (validStates c).
Proof. unfold validStates. apply _. Defined.

(** Every job of the chain is in state COMPLETE. *)
Definition allComplete (c : Chain) : Prop :=
  map_Forall (λ _ j, Job.State j = STATE_COMPLETE) (Jobs c).

#[global] Instance allComplete_dec (c : Chain) : Decision (allComplete c).
Proof. unfold allComplete. apply _. Defined.

(** Every job with an adjacency-list edge into [id] is in state
    COMPLETE. *)
Definition previousComplete (c : Chain) (id : string) : Prop :=
  ∀ p next pj,
    AdjacencyList c !! p = Some next → id ∈ next → Jobs c !! p = Some pj →
    Job.State pj = STATE_COMPLETE.

(** The job keeps the chain running: it is running, or pending and
    runnable, or failed with a sequence that can be retried. *)
Definition keepsRunning (c : Chain) (j : Job.t) : Prop :=
  Job.State j = STATE_RUNNING
  ∨ (Job.State j = STATE_PENDING ∧ isRunnable c (Job.Id j) = true)
  ∨ ((Job.State j = STATE_FAIL ∨ Job.State j = STATE_UNKNOWN)
     ∧ canRetrySequence c (Job.Id j) = true).

End WithStates.

End spec.

(** ** Sample values, on which the definitions are run *)
Module sample.
Import go proto chain.

(** One assignment of bytes to the six state names; 5 and 7 are among the
    bytes that name no job state. *)
Definition states : States :=
  {| STATE_UNKNOWN := Byte.x00; STATE_PENDING := Byte.x01;
     STATE_RUNNING := Byte.x02; STATE_COMPLETE := Byte.x03;
     STATE_FAIL := Byte.x04; STATE_STOPPED := Byte.x06 |}.

(** A job of the sequence that starts at [job1], as the tests build them. *)
Definition newJob (id : string) (state : Byte.byte) (sequenceRetry : N) : Job.t :=
  Job.mk id state "job1" sequenceRetry 0 None.

(** The chain of the tests on [IsDoneRunning]: job1 -> job2, job3 and
    job2 -> job4, nothing tried yet. *)
Definition diamond (s1 s2 s3 s4 : Byte.byte) : Chain :=
  mkChain
    (JobChain.mk "req"
       {[ "job1" := newJob "job1" s1 0; "job2" := newJob "job2" s2 0;
          "job3" := newJob "job3" s3 0; "job4" := newJob "job4" s4 0 ]}
       {[ "job1" := ["job2"; "job3"]; "job2" := ["job4"] ]}
       Byte.x02 0)
    ∅ ∅ ∅.

(** Two jobs without edges. *)
Definition pair (s1 s2 : Byte.byte) : Chain :=
  mkChain
    (JobChain.mk "req"
       {[ "job1" := newJob "job1" s1 0; "job2" := newJob "job2" s2 0 ]}
       ∅ Byte.x02 0)
    ∅ ∅ ∅.

(** A store with one chain in it, the diamond with job2 stopped, two tries
    of job1 and one of job2 counted. *)
Definition store : shared.Store :=
  shared.mkStore
    {[ 1%positive := jobChain (diamond Byte.x03 Byte.x06 Byte.x03 Byte.x01) ]}
    {[ 2%positive := {[ "job1" := 1%N ]};
       3%positive := {[ "job1" := 1%N; "job2" := 1%N ]};
       4%positive := {[ "job1" := 2%N; "job2" := 1%N ]} ]}
    3%positive.

Definition stored : shared.Chain :=
  shared.mkChain 1%positive 1%positive 2%positive 2%positive 3%positive 4%positive.

End sample.

(** ** Shapes of chains and of argument lists *)
Module shape.
Import go proto chain.

(** Every job is stored under its own id, as the resolver builds the
    [Jobs] map. *)
Definition keyedById (c : Chain) : Prop :=
  map_Forall (λ id j, Job.Id j = id) (Jobs c).

#[global] Instance keyedById_dec (c : Chain) : Decision (keyedById c).
Proof. unfold keyedById. apply _. Defined.

(** Every job has a data map. *)
Definition allData (jobs : gmap string Job.t) : Prop :=
  map_Forall (λ _ j, Job.Data j ≠ None) jobs.

#[global] Instance allData_dec (jobs : gmap string Job.t) : Decision (allData jobs).
Proof. unfold allData. apply _. Defined.

Section WithStates.
Context {S : States}.

(** The job is in state FAIL or UNKNOWN. *)
Definition failed (j : Job.t) : Prop :=
  Job.State j = STATE_FAIL ∨ Job.State j = STATE_UNKNOWN.

#[global] Instance failed_dec (j : Job.t) : Decision (failed j).
Proof. unfold failed. apply _. Defined.

#[global] Instance keepsRunning_dec (c : Chain) (j : Job.t) :
  Decision (spec.keepsRunning c j).
Proof. unfold spec.keepsRunning. apply _. Defined.

End WithStates.

(** The filters the arguments name, in the order of the arguments;
    arguments without '=' name none. *)
Definition namedFilters (args : list string) : list string :=
  omap cmd.filterName args.

(** The argument splits on '=' and names a recognized filter. *)
Definition passes (arg : string) : Prop :=
  ∃ filter, cmd.filterName arg = Some filter ∧ filter ∈ cmd.filterNames.

(** Every argument passes, and no filter is named twice. *)
Definition accepted (args : list string) : Prop :=
  Forall passes args ∧ NoDup (namedFilters args).

End shape.

(** * Properties *)

Import go proto chain spec.

(** ** The job states *)

(** The pairwise inequalities between the six constants. *)
Lemma distinct_ne {S : States} :
  distinct S →
  STATE_UNKNOWN ≠ STATE_PENDING ∧ STATE_UNKNOWN ≠ STATE_RUNNING
  ∧ STATE_UNKNOWN ≠ STATE_COMPLETE ∧ STATE_UNKNOWN ≠ STATE_FAIL
  ∧ STATE_UNKNOWN ≠ STATE_STOPPED ∧ STATE_PENDING ≠ STATE_RUNNING
  ∧ STATE_PENDING ≠ STATE_COMPLETE ∧ STATE_PENDING ≠ STATE_FAIL
  ∧ STATE_PENDING ≠ STATE_STOPPED ∧ STATE_RUNNING ≠ STATE_COMPLETE
  ∧ STATE_RUNNING ≠ STATE_FAIL ∧ STATE_RUNNING ≠ STATE_STOPPED
  ∧ STATE_COMPLETE ≠ STATE_FAIL ∧ STATE_COMPLETE ≠ STATE_STOPPED
  ∧ STATE_FAIL ≠ STATE_STOPPED.
Proof.
  unfold distinct. intros H.
  repeat match goal with
         | H : NoDup (_ :: _) |- _ => apply NoDup_cons in H as [? H]
         end.
  set_solver.
Qed.

Lemma isJobState_cases {S : States} (s : Byte.byte) :
  isJobState s ↔
  s = STATE_PENDING ∨ s = STATE_RUNNING ∨ s = STATE_COMPLETE
  ∨ s = STATE_FAIL ∨ s = STATE_STOPPED ∨ s = STATE_UNKNOWN.
Proof.
  unfold isJobState. rewrite !elem_of_cons, elem_of_nil. tauto.
Qed.

Ltac use_distinct H :=
  let H' := fresh in
  pose proof (distinct_ne H) as H';
  destruct H' as (? & ? & ? & ? & ? & ? & ? & ? & ? & ? & ? & ? & ? & ? & ?).

(** ** Runnable jobs *)

Section chain_lemmas.
Context {S : States}.

Lemma contains_elem_of (s : list string) (t : string) :
  contains s t = true ↔ t ∈ s.
Proof.
  induction s as [|i s IH]; simpl.
  - split; [done | by intros ?%elem_of_nil].
  - rewrite elem_of_cons. destruct (decide (i = t)) as [->|Hne].
    + split; auto.
    + rewrite IH. split; [auto | intros [?|?]; congruence].
Qed.

Lemma elem_of_previousJobs_loop jobs adj id (pj : Job.t) :
  pj ∈ previousJobs_loop jobs adj id ↔
  ∃ p next, (p, next) ∈ adj ∧ id ∈ next ∧ jobs !! p = Some pj.
Proof.
  induction adj as [|[curJob nextJobs] rest IH]; simpl.
  - split; [by intros ?%elem_of_nil | by intros (? & ? & ?%elem_of_nil & _)].
  - destruct (contains nextJobs id) eqn:Hc.
    + apply contains_elem_of in Hc.
      destruct (jobs !! curJob) as [val|] eqn:Hval.
      * rewrite elem_of_cons, IH. split.
        -- intros [->|(p & next & Hin & Hid & Hp)].
           ++ exists curJob, nextJobs. rewrite elem_of_cons. auto.
           ++ exists p, next. rewrite elem_of_cons. auto.
        -- intros (p & next & Hin & Hid & Hp).
           apply elem_of_cons in Hin as [Heq|Hin].
           ++ inversion Heq; subst. left. congruence.
           ++ right. eauto.
      * rewrite IH. split.
        -- intros (p & next & Hin & Hid & Hp).
           exists p, next. rewrite elem_of_cons. auto.
        -- intros (p & next & Hin & Hid & Hp).
           apply elem_of_cons in Hin as [Heq|Hin].
           ++ inversion Heq; subst. congruence.
           ++ eauto.
    + rewrite IH. split.
      * intros (p & next & Hin & Hid & Hp).
        exists p, next. rewrite elem_of_cons. auto.
      * intros (p & next & Hin & Hid & Hp).
        apply elem_of_cons in Hin as [Heq|Hin].
        -- inversion Heq; subst. apply contains_elem_of in Hid. congruence.
        -- eauto.
Qed.

Lemma isRunnable_loop_true (prev : list Job.t) :
  isRunnable_loop prev = true ↔ ∀ pj, pj ∈ prev → Job.State pj = STATE_COMPLETE.
Proof.
  induction prev as [|j rest IH]; simpl.
  - split; [by intros _ ? ?%elem_of_nil | done].
  - destruct (decide (Job.State j ≠ STATE_COMPLETE)) as [Hne|Heq].
    + split; [done|]. intros H. exfalso. apply Hne, H. by left.
    + apply dec_stable in Heq. rewrite IH. split.
      * intros H pj [->|Hin]%elem_of_cons; auto.
      * intros H pj Hin. apply H. by right.
Qed.

(** [isRunnable], for any order in which the adjacency list is visited. *)
Lemma isRunnable_in_true adj (c : Chain) id :
  ranges (AdjacencyList c) adj →
  isRunnable_in adj c id = true ↔
  Job.State (job (Jobs c) id) = STATE_PENDING ∧ previousComplete c id.
Proof.
  unfold ranges. intros Hadj. unfold isRunnable_in, previousJobs_in.
  destruct (decide (Job.State (job (Jobs c) id) ≠ STATE_PENDING)) as [Hne|Heq].
  - split; [done | by intros [? _]].
  - apply dec_stable in Heq. rewrite isRunnable_loop_true. split.
    + intros H. split; [done|]. intros p next pj Hp Hid Hpj.
      apply H, elem_of_previousJobs_loop. exists p, next.
      split_and!; try done. rewrite Hadj. by apply elem_of_map_to_list.
    + intros [_ H] pj (p & next & Hin & Hid & Hpj)%elem_of_previousJobs_loop.
      rewrite Hadj in Hin. apply elem_of_map_to_list in Hin. eauto.
Qed.

Lemma isRunnable_in_order adj (c : Chain) id :
  ranges (AdjacencyList c) adj → isRunnable_in adj c id = isRunnable c id.
Proof.
  intros Hadj. apply eq_true_iff_eq. unfold isRunnable.
  rewrite (isRunnable_in_true adj) by done.
  rewrite (isRunnable_in_true (map_to_list _)) by (unfold ranges; reflexivity). done.
Qed.

End chain_lemmas.

(** ** The completion oracle *)

Section oracle_lemmas.
Context {S : States}.

(** The values of a map are the second components of any visiting order. *)
Lemma ranges_values {V : Type} (m : gmap string V) order (v : V) :
  ranges m order → v ∈ order.*2 ↔ ∃ id, m !! id = Some v.
Proof.
  unfold ranges. intros Hperm. rewrite list_elem_of_fmap. split.
  - intros ([id v'] & -> & Hin). exists id. rewrite Hperm in Hin.
    by apply elem_of_map_to_list in Hin.
  - intros [id Hid]. exists (id, v). split; [done|].
    rewrite Hperm. by apply elem_of_map_to_list.
Qed.

(** Once [complete] is false the loop cannot return (true, true). *)
Lemma IsDoneRunning_loop_false (c : Chain) jobs :
  IsDoneRunning_loop c jobs false ≠ Return (true, true).
Proof.
  induction jobs as [|j rest IH]; simpl; [done|].
  repeat case_decide; try done.
  - by destruct (isRunnable c (Job.Id j)).
  - by destruct (canRetrySequence c (Job.Id j)).
Qed.

Lemma IsDoneRunning_loop_true_true (c : Chain) jobs complete :
  IsDoneRunning_loop c jobs complete = Return (true, true) ↔
  complete = true ∧ ∀ j, j ∈ jobs → Job.State j = STATE_COMPLETE.
Proof.
  revert complete. induction jobs as [|j rest IH]; intros complete; simpl.
  - split.
    + intros [= ->]. split; [done|]. by intros ? ?%elem_of_nil.
    + by intros [-> _].
  - destruct (decide (Job.State j = STATE_COMPLETE)) as [Hc|Hc].
    + rewrite IH. split; intros [-> H]; split; try done.
      * intros j' [->|?]%elem_of_cons; auto.
      * intros j' ?. apply H. by right.
    + split.
      * intros H. exfalso. revert H.
        repeat case_decide; try done;
          try (destruct (isRunnable c (Job.Id j)); [done|]);
          try (destruct (canRetrySequence c (Job.Id j)); [done|]);
          apply IsDoneRunning_loop_false.
      * intros [_ H]. exfalso. apply Hc, H. by left.
Qed.

(** With valid states, a job that keeps the chain running ends the loop
    with (false, false), wherever it stands in the visiting order. *)
Lemma IsDoneRunning_loop_keepsRunning (c : Chain) jobs complete :
  distinct S →
  (∀ j, j ∈ jobs → isJobState (Job.State j)) →
  (∃ j, j ∈ jobs ∧ keepsRunning c j) →
  IsDoneRunning_loop c jobs complete = Return (false, false).
Proof.
  intros Hd. use_distinct Hd. revert complete.
  induction jobs as [|j rest IH]; intros complete Hvalid (k & Hk & Hrun).
  - by apply elem_of_nil in Hk.
  - assert (Hrest : ∀ j', j' ∈ rest → isJobState (Job.State j'))
      by (intros j' ?; apply Hvalid; by right).
    assert (Hj : isJobState (Job.State j)) by (apply Hvalid; by left).
    assert (Hnext : ¬ keepsRunning c j → ∃ j', j' ∈ rest ∧ keepsRunning c j').
    { intros Hnot. apply elem_of_cons in Hk as [->|Hk]; [done|eauto]. }
    simpl. unfold keepsRunning in Hnext.
    repeat case_decide.
    + apply IH; [done|]. apply Hnext. intros [?|[[? _]|[[?|?] _]]]; congruence.
    + done.
    + apply IH; [done|]. apply Hnext. intros [?|[[? _]|[[?|?] _]]]; congruence.
    + destruct (isRunnable c (Job.Id j)) eqn:Hr; [done|].
      apply IH; [done|]. apply Hnext. intros [?|[[? ?]|[[?|?] _]]]; congruence.
    + destruct (canRetrySequence c (Job.Id j)) eqn:Hr; [done|].
      apply IH; [done|]. apply Hnext. intros [?|[[? ?]|[_ ?]]]; congruence.
    + exfalso. apply isJobState_cases in Hj. tauto.
Qed.

(** With valid states and no job that keeps the chain running, the loop
    runs to its end and reports the chain done. *)
Lemma IsDoneRunning_loop_done (c : Chain) jobs complete :
  (∀ j, j ∈ jobs → isJobState (Job.State j)) →
  (∀ j, j ∈ jobs → ¬ keepsRunning c j) →
  ∃ complete', IsDoneRunning_loop c jobs complete = Return (true, complete').
Proof.
  revert complete. induction jobs as [|j rest IH]; intros complete Hvalid Hnone.
  - by eexists.
  - assert (Hrest : ∀ j', j' ∈ rest → isJobState (Job.State j'))
      by (intros j' ?; apply Hvalid; by right).
    assert (Hnone' : ∀ j', j' ∈ rest → ¬ keepsRunning c j')
      by (intros j' ?; apply Hnone; by right).
    assert (Hj : isJobState (Job.State j)) by (apply Hvalid; by left).
    assert (Hnj : ¬ keepsRunning c j) by (apply Hnone; by left).
    simpl. unfold keepsRunning in Hnj. repeat case_decide.
    + by apply IH.
    + exfalso. apply Hnj. by left.
    + by apply IH.
    + destruct (isRunnable c (Job.Id j)) eqn:Hr.
      * exfalso. apply Hnj. right. left. done.
      * by apply IH.
    + destruct (canRetrySequence c (Job.Id j)) eqn:Hr.
      * exfalso. apply Hnj. right. right. done.
      * by apply IH.
    + exfalso. apply isJobState_cases in Hj. tauto.
Qed.

End oracle_lemmas.

(** C1. For a chain whose jobs are all in one of the six job states,
    [IsDoneRunning] returns (true, true) iff every job of the chain is
    COMPLETE, in whatever order the jobs are visited. *)
Theorem IsDoneRunning_true_true_iff_allComplete
    {S : States} (c : Chain) (order : list (string * Job.t)) :
  ranges (Jobs c) order →
  validStates c →
  IsDoneRunning_in order c = Return (true, true) ↔ allComplete c.
Proof.
  intros Horder _. unfold IsDoneRunning_in, allComplete.
  rewrite IsDoneRunning_loop_true_true. split.
  - intros [_ H] id j Hj. apply H. rewrite (ranges_values _ _ _ Horder). eauto.
  - intros H. split; [done|]. intros j Hj.
    apply (ranges_values _ _ _ Horder) in Hj as [id Hj]. eauto.
Qed.

Lemma IsDoneRunning_true_true_iff_allComplete_witness :
  IsDoneRunning_in (S := sample.states)
    (map_to_list (Jobs (sample.pair Byte.x03 Byte.x03)))
    (sample.pair Byte.x03 Byte.x03) = Return (true, true)
  ↔ allComplete (S := sample.states) (sample.pair Byte.x03 Byte.x03).
Proof.
  apply (IsDoneRunning_true_true_iff_allComplete (S := sample.states)).
  - unfold ranges. reflexivity.
  - apply (bool_decide_unpack _). vm_compute. exact I.
Defined.

(** C2, amended. For a chain whose jobs are all in one of the six job
    states: if some job is RUNNING, or some job is PENDING and runnable,
    [IsDoneRunning] returns (false, false), in whatever order the jobs are
    visited. *)
Theorem IsDoneRunning_running_or_runnable
    {S : States} (c : Chain) (order : list (string * Job.t)) :
  distinct S →
  ranges (Jobs c) order →
  validStates c →
  (∃ id j, Jobs c !! id = Some j
           ∧ (Job.State j = STATE_RUNNING
              ∨ (Job.State j = STATE_PENDING ∧ IsRunnable c (Job.Id j) = true))) →
  IsDoneRunning_in order c = Return (false, false).
Proof.
  intros Hd Horder Hvalid (id & j & Hj & Hrun).
  apply IsDoneRunning_loop_keepsRunning; [done | |].
  - intros j' [id' Hj']%(ranges_values _ _ _ Horder). by apply (Hvalid id').
  - exists j. split.
    + apply (ranges_values _ _ _ Horder). eauto.
    + unfold keepsRunning. unfold IsRunnable in Hrun. tauto.
Qed.

Lemma IsDoneRunning_running_or_runnable_witness :
  IsDoneRunning_in (S := sample.states)
    (map_to_list (Jobs (sample.diamond Byte.x03 Byte.x02 Byte.x01 Byte.x01)))
    (sample.diamond Byte.x03 Byte.x02 Byte.x01 Byte.x01) = Return (false, false).
Proof.
  apply (IsDoneRunning_running_or_runnable (S := sample.states)).
  - apply (bool_decide_unpack _). vm_compute. exact I.
  - unfold ranges. reflexivity.
  - apply (bool_decide_unpack _). vm_compute. exact I.
  - exists "job2", (sample.newJob "job2" Byte.x02 0). split; [reflexivity|].
    left. reflexivity.
Defined.

(** C2 as stated fails on a chain with a job in none of the six states:
    visited before the running job, it makes [IsDoneRunning] panic. *)
Lemma IsDoneRunning_running_counterexample :
  let c := sample.pair Byte.x02 Byte.x07 in
  let order := [("job2", sample.newJob "job2" Byte.x07 0);
                ("job1", sample.newJob "job1" Byte.x02 0)] in
  distinct sample.states
  ∧ ranges (Jobs c) order
  ∧ (∃ id j, Jobs c !! id = Some j ∧ Job.State j = STATE_RUNNING (States := sample.states))
  ∧ IsDoneRunning_in (S := sample.states) order c = Panic
  ∧ IsDoneRunning_in (S := sample.states) order c ≠ Return (false, false).
Proof.
  split_and!.
  - apply (bool_decide_unpack _). vm_compute. exact I.
  - unfold ranges. vm_compute. apply Permutation_swap.
  - exists "job1", (sample.newJob "job1" Byte.x02 0). split; reflexivity.
  - vm_compute. reflexivity.
  - vm_compute. discriminate.
Qed.

(** The entries of a map written out key by key. *)
Ltac lookup_cases H :=
  repeat
    (first
       [ apply lookup_singleton_Some in H as [? ?]
       | apply lookup_insert_Some in H as [[? ?]|[? H]]
       | by rewrite lookup_empty in H ]);
  simplify_eq.

Section diamond.
Context {S : States}.
Variable c : Chain.
Variables j1 j2 j3 j4 : Job.t.
Hypothesis Hdistinct : distinct S.
Hypothesis Hjobs :
  Jobs c = {[ "job1" := j1; "job2" := j2; "job3" := j3; "job4" := j4 ]}.
Hypothesis Hadj :
  AdjacencyList c = {[ "job1" := ["job2"; "job3"]; "job2" := ["job4"] ]}.
Hypothesis Hid4 : Job.Id j4 = "job4".

Lemma diamond_job4 : job (Jobs c) "job4" = j4.
Proof. rewrite Hjobs. reflexivity. Qed.

(** job4 has one previous job, job2. *)
Lemma diamond_previousComplete :
  previousComplete c "job4" ↔ Job.State j2 = STATE_COMPLETE.
Proof.
  unfold previousComplete. rewrite Hjobs, Hadj. split.
  - intros H. by apply (H "job2" ["job4"] j2); [| apply list_elem_of_singleton |].
  - intros H2 p next pj Hp Hin Hpj. lookup_cases Hp.
    + apply elem_of_cons in Hin as [?|Hin]; [done|].
      apply elem_of_cons in Hin as [?|Hin]; [done|].
      by apply elem_of_nil in Hin.
    + lookup_cases Hpj. done.
Qed.

Lemma diamond_isRunnable_job4 :
  isRunnable c "job4" = true ↔
  Job.State j4 = STATE_PENDING ∧ Job.State j2 = STATE_COMPLETE.
Proof.
  unfold isRunnable. rewrite isRunnable_in_true by (unfold ranges; reflexivity).
  by rewrite diamond_job4, diamond_previousComplete.
Qed.

Lemma diamond_values (P : Job.t → Prop) order :
  ranges (Jobs c) order →
  (∀ j, j ∈ order.*2 → P j) ↔ P j1 ∧ P j2 ∧ P j3 ∧ P j4.
Proof.
  intros Horder. split.
  - intros H. split_and!; apply H; apply (ranges_values _ _ _ Horder);
      rewrite Hjobs; [by exists "job1" | by exists "job2" | by exists "job3" | by exists "job4"].
  - intros (? & ? & ? & ?) j [id Hj]%(ranges_values _ _ _ Horder).
    rewrite Hjobs in Hj. lookup_cases Hj; done.
Qed.

(** job2 complete and job3 stopped: job4 is runnable, the chain is not
    done. *)
Lemma diamond_stopped_aside order :
  ranges (Jobs c) order →
  Job.State j1 = STATE_COMPLETE → Job.State j2 = STATE_COMPLETE →
  Job.State j3 = STATE_STOPPED → Job.State j4 = STATE_PENDING →
  IsRunnable c "job4" = true
  ∧ IsDoneRunning_in order c = Return (false, false).
Proof.
  intros Horder H1 H2 H3 H4.
  assert (Hr : isRunnable c "job4" = true) by by apply diamond_isRunnable_job4.
  split; [done|]. apply IsDoneRunning_loop_keepsRunning; [done | |].
  - apply (diamond_values (λ j, isJobState (Job.State j)) order Horder).
    rewrite !isJobState_cases. tauto.
  - exists j4. split.
    + apply (ranges_values _ _ _ Horder). exists "job4". by rewrite Hjobs.
    + right. left. by rewrite Hid4.
Qed.

(** job2 stopped: job4 is not runnable, the chain is done and not
    complete. *)
Lemma diamond_stopped_upstream order :
  ranges (Jobs c) order →
  Job.State j1 = STATE_COMPLETE → Job.State j2 = STATE_STOPPED →
  Job.State j3 = STATE_COMPLETE → Job.State j4 = STATE_PENDING →
  IsRunnable c "job4" = false
  ∧ IsDoneRunning_in order c = Return (true, false).
Proof.
  intros Horder H1 H2 H3 H4. use_distinct Hdistinct.
  assert (Hr : isRunnable c "job4" = false).
  { apply not_true_is_false. rewrite diamond_isRunnable_job4.
    intros [_ ?]. congruence. }
  split; [done|].
  destruct (IsDoneRunning_loop_done c (order.*2) true) as [complete Hdone].
  - apply (diamond_values (λ j, isJobState (Job.State j)) order Horder).
    rewrite !isJobState_cases. tauto.
  - apply (diamond_values (λ j, ¬ keepsRunning c j) order Horder).
    unfold keepsRunning. rewrite Hid4, Hr.
    split_and!; intros [?|[[? ?]|[[?|?] _]]]; congruence.
  - unfold IsDoneRunning_in. rewrite Hdone. destruct complete; [|done].
    apply IsDoneRunning_loop_true_true in Hdone as [_ Hall].
    apply (diamond_values (λ j, Job.State j = STATE_COMPLETE) order Horder) in Hall.
    destruct Hall as (_ & ? & _). congruence.
Qed.

End diamond.

(** C3. In the chain job1 -> job2, job3 and job2 -> job4 with job1 complete
    and job4 pending: if job2 is complete and job3 stopped, job4 is runnable
    and [IsDoneRunning] returns (false, false); if job2 is stopped and job3
    complete, job4 is not runnable and [IsDoneRunning] returns (true, false).
    A stopped job blocks its downstream jobs only. *)
Theorem stopped_blocks_downstream_only
    {S : States} (c : Chain) (j1 j2 j3 j4 : Job.t) :
  distinct S →
  Jobs c = {[ "job1" := j1; "job2" := j2; "job3" := j3; "job4" := j4 ]} →
  AdjacencyList c = {[ "job1" := ["job2"; "job3"]; "job2" := ["job4"] ]} →
  Job.Id j4 = "job4" →
  Job.State j1 = STATE_COMPLETE →
  Job.State j4 = STATE_PENDING →
  (Job.State j2 = STATE_COMPLETE → Job.State j3 = STATE_STOPPED →
   IsRunnable c "job4" = true
   ∧ ∀ order, ranges (Jobs c) order →
              IsDoneRunning_in order c = Return (false, false))
  ∧ (Job.State j2 = STATE_STOPPED → Job.State j3 = STATE_COMPLETE →
     IsRunnable c "job4" = false
     ∧ ∀ order, ranges (Jobs c) order →
                IsDoneRunning_in order c = Return (true, false)).
Proof.
  intros Hd Hjobs Hadj Hid4 H1 H4. split; intros H2 H3.
  - split.
    + by apply (diamond_isRunnable_job4 c j1 j2 j3 j4).
    + intros order Horder.
      by apply (diamond_stopped_aside c j1 j2 j3 j4 Hd Hjobs Hadj Hid4 order).
  - split.
    + apply (diamond_stopped_upstream c j1 j2 j3 j4 Hd Hjobs Hadj Hid4
               (map_to_list (Jobs c))); [by unfold ranges | done..].
    + intros order Horder.
      by apply (diamond_stopped_upstream c j1 j2 j3 j4 Hd Hjobs Hadj Hid4 order).
Qed.

Lemma stopped_blocks_downstream_only_witness :
  let aside := sample.diamond Byte.x03 Byte.x03 Byte.x06 Byte.x01 in
  let upstream := sample.diamond Byte.x03 Byte.x06 Byte.x03 Byte.x01 in
  (IsRunnable (S := sample.states) aside "job4" = true
   ∧ IsDoneRunning (S := sample.states) aside = Return (false, false))
  ∧ (IsRunnable (S := sample.states) upstream "job4" = false
     ∧ IsDoneRunning (S := sample.states) upstream = Return (true, false)).
Proof.
  split.
  - destruct (stopped_blocks_downstream_only (S := sample.states)
                (sample.diamond Byte.x03 Byte.x03 Byte.x06 Byte.x01)
                (sample.newJob "job1" Byte.x03 0) (sample.newJob "job2" Byte.x03 0)
                (sample.newJob "job3" Byte.x06 0) (sample.newJob "job4" Byte.x01 0))
      as [[Hr Hdone] _];
      [ apply (bool_decide_unpack _); vm_compute; exact I
      | reflexivity.. |].
    split; [exact Hr | apply Hdone; unfold ranges; reflexivity].
  - destruct (stopped_blocks_downstream_only (S := sample.states)
                (sample.diamond Byte.x03 Byte.x06 Byte.x03 Byte.x01)
                (sample.newJob "job1" Byte.x03 0) (sample.newJob "job2" Byte.x06 0)
                (sample.newJob "job3" Byte.x03 0) (sample.newJob "job4" Byte.x01 0))
      as [_ [Hr Hdone]];
      [ apply (bool_decide_unpack _); vm_compute; exact I
      | reflexivity.. |].
    split; [exact Hr | apply Hdone; unfold ranges; reflexivity].
Defined.

(** C4. For a job id present in [Jobs], [IsRunnable] returns true iff the
    job is PENDING and every job with an adjacency-list edge into it is
    COMPLETE, in whatever order the adjacency list is visited; it returns
    false for a job that is STOPPED, FAIL, UNKNOWN, RUNNING or COMPLETE. *)
Theorem IsRunnable_iff_pending_and_previous_complete
    {S : States} (c : Chain) (id : string) (j : Job.t) :
  distinct S →
  Jobs c !! id = Some j →
  (IsRunnable c id = true ↔ Job.State j = STATE_PENDING ∧ previousComplete c id)
  ∧ (Job.State j ∈ [STATE_STOPPED; STATE_FAIL; STATE_UNKNOWN;
                    STATE_RUNNING; STATE_COMPLETE] →
     IsRunnable c id = false)
  ∧ (∀ adj, ranges (AdjacencyList c) adj →
            isRunnable_in adj c id = IsRunnable c id).
Proof.
  intros Hd Hj. use_distinct Hd.
  assert (Hiff : IsRunnable c id = true ↔
                 Job.State j = STATE_PENDING ∧ previousComplete c id).
  { unfold IsRunnable, isRunnable.
    rewrite isRunnable_in_true by (unfold ranges; reflexivity).
    unfold job. by rewrite Hj. }
  split_and!.
  - exact Hiff.
  - intros Hin. apply not_true_is_false. rewrite Hiff. intros [Hp _].
    rewrite Hp in Hin. rewrite !elem_of_cons, elem_of_nil in Hin.
    intuition congruence.
  - intros adj Hadj. by apply isRunnable_in_order.
Qed.

Lemma IsRunnable_iff_pending_and_previous_complete_witness :
  let c := sample.diamond Byte.x03 Byte.x03 Byte.x06 Byte.x01 in
  (IsRunnable (S := sample.states) c "job3" = true ↔
   Byte.x06 = Byte.x01 ∧ previousComplete (S := sample.states) c "job3")
  ∧ IsRunnable (S := sample.states) c "job3" = false.
Proof.
  destruct (IsRunnable_iff_pending_and_previous_complete (S := sample.states)
              (sample.diamond Byte.x03 Byte.x03 Byte.x06 Byte.x01)
              "job3" (sample.newJob "job3" Byte.x06 0))
    as (Hiff & Hfalse & _);
    [ apply (bool_decide_unpack _); vm_compute; exact I | reflexivity |].
  split; [exact Hiff | apply Hfalse; by left].
Defined.

(** ** Integers that do not wrap *)

Section go_arithmetic.
Local Open Scope Z_scope.

Lemma wrap_int_id (i : Z) : is_int i → wrap_int i = i.
Proof.
  unfold is_int, wrap_int, intSize. intros H.
  change (2 ^ (64 - 1)) with 9223372036854775808 in *.
  change (2 ^ 64) with 18446744073709551616.
  rewrite Z.mod_small by lia. lia.
Qed.

Lemma int_of_uint_id (u : N) :
  Z.of_N u < 2 ^ (intSize - 1) → int_of_uint u = Z.of_N u.
Proof.
  intros H. unfold int_of_uint. apply wrap_int_id. unfold is_int.
  unfold intSize in *. change (2 ^ (64 - 1)) with 9223372036854775808 in *. lia.
Qed.

Lemma int_add_id (a b : Z) : is_int (a + b) → int_add a b = a + b.
Proof. apply wrap_int_id. Qed.

Lemma uint_of_int_id (i : Z) :
  0 <= i < 2 ^ intSize → Z.of_N (uint_of_int i) = i.
Proof.
  unfold uint_of_int. intros H. rewrite Z.mod_small by done. lia.
Qed.

Lemma uint_add_id (a b : N) :
  Z.of_N a + Z.of_N b < 2 ^ intSize → uint_add a b = (a + b)%N.
Proof.
  intros H. unfold uint_add. apply N2Z.inj.
  rewrite uint_of_int_id by lia. lia.
Qed.

(** A sum below zero is below zero as an [int] too: a [uint] is at least
    zero and an [int] at least -2^63. *)
Lemma int_add_negative (u : N) (delta : Z) :
  is_int delta → Z.of_N u + delta < 0 → int_add (int_of_uint u) delta < 0.
Proof.
  unfold is_int. intros Hdelta Hneg.
  assert (Hu : Z.of_N u < 2 ^ (intSize - 1)) by lia.
  rewrite int_of_uint_id by done.
  rewrite int_add_id; [done|]. unfold is_int. lia.
Qed.

End go_arithmetic.

(** ** Retry bookkeeping *)

Lemma tries_insert (m : gmap string N) (id id' : string) (n : N) :
  tries (<[id := n]> m) id' = if decide (id = id') then n else tries m id'.
Proof. unfold tries. rewrite lookup_insert. by case_decide. Qed.

(** C5. For a job whose [SequenceId] names an existing job [s],
    [CanRetrySequence] returns true iff [sequenceTries[s.Id]] is at most
    [s.SequenceRetry], [s] being the sequence-start job; with a
    [SequenceRetry] of 2 that is the case for 0, 1 and 2 tries, three
    attempts in all. *)
Theorem CanRetrySequence_iff_tries_le_retry
    (c : Chain) (id : string) (j s : Job.t) :
  Jobs c !! id = Some j →
  Jobs c !! Job.SequenceId j = Some s →
  SequenceStartJob c id = s
  ∧ (CanRetrySequence c id = true ↔
     (tries (sequenceTries c) (Job.Id s) ≤ Job.SequenceRetry s)%N)
  ∧ (Job.SequenceRetry s = 2%N →
     CanRetrySequence c id = true ↔
     tries (sequenceTries c) (Job.Id s) ∈ [0; 1; 2]%N).
Proof.
  intros Hj Hs.
  assert (Hstart : SequenceStartJob c id = s).
  { unfold SequenceStartJob, job. by rewrite Hj; simpl; rewrite Hs. }
  assert (Hiff : CanRetrySequence c id = true ↔
                 (tries (sequenceTries c) (Job.Id s) ≤ Job.SequenceRetry s)%N).
  { unfold CanRetrySequence. rewrite Hstart. apply bool_decide_eq_true. }
  split_and!; [done | done |].
  intros Hretry. rewrite Hiff, Hretry, !elem_of_cons, elem_of_nil. lia.
Qed.

Lemma CanRetrySequence_iff_tries_le_retry_witness :
  let c :=
    mkChain
      (JobChain.mk "req"
         {[ "job1" := sample.newJob "job1" Byte.x03 2;
            "job2" := sample.newJob "job2" Byte.x04 0 ]}
         {[ "job1" := ["job2"] ]} Byte.x02 0)
      {[ "job1" := 2%N ]} ∅ ∅ in
  CanRetrySequence c "job2" = true ↔
  tries (sequenceTries c) "job1" ∈ [0; 1; 2]%N.
Proof.
  apply (CanRetrySequence_iff_tries_le_retry _ "job2"
           (sample.newJob "job2" Byte.x04 0) (sample.newJob "job1" Byte.x03 2));
    reflexivity.
Defined.

(** C6, amended. As long as the counters stay within [int] and [uint]:
    for k > 0, [IncrementJobTries(id, +k)] returns and both
    [totalJobTries[id]] and [latestRunJobTries[id]] grow by exactly k; for
    0 <= k <= [latestRunJobTries[id]], [IncrementJobTries(id, -k)] returns,
    [totalJobTries] is unchanged and [latestRunJobTries[id]] decreases by
    exactly k. *)
Theorem IncrementJobTries_adds_delta (c : Chain) (id : string) (k : Z) :
  ((0 < k)%Z →
   (Z.of_N (tries (latestRunJobTries c) id) + k < 2 ^ (intSize - 1))%Z →
   (Z.of_N (tries (totalJobTries c) id) + k < 2 ^ intSize)%Z →
   ∃ c', IncrementJobTries c id k = (c', Return tt)
         ∧ Z.of_N (tries (totalJobTries c') id)
           = (Z.of_N (tries (totalJobTries c) id) + k)%Z
         ∧ Z.of_N (tries (latestRunJobTries c') id)
           = (Z.of_N (tries (latestRunJobTries c) id) + k)%Z)
  ∧ ((0 ≤ k)%Z →
     (k ≤ Z.of_N (tries (latestRunJobTries c) id))%Z →
     (Z.of_N (tries (latestRunJobTries c) id) < 2 ^ (intSize - 1))%Z →
     ∃ c', IncrementJobTries c id (- k) = (c', Return tt)
           ∧ totalJobTries c' = totalJobTries c
           ∧ Z.of_N (tries (latestRunJobTries c') id)
             = (Z.of_N (tries (latestRunJobTries c) id) - k)%Z).
Proof.
  assert (H63 : (2 ^ (intSize - 1) = 9223372036854775808)%Z) by reflexivity.
  assert (H64 : (2 ^ intSize = 18446744073709551616)%Z) by reflexivity.
  split.
  - intros Hk Hlatest Htotal. unfold IncrementJobTries.
    destruct (decide (0 < k)%Z) as [_|?]; [|lia]. simpl.
    rewrite int_of_uint_id by lia.
    rewrite int_add_id by (unfold is_int; lia).
    rewrite decide_False by lia.
    eexists. split; [reflexivity|]. simpl. rewrite !tries_insert, !decide_True by done.
    assert (Hk' : Z.of_N (uint_of_int k) = k) by (apply uint_of_int_id; lia).
    split.
    + rewrite uint_add_id by lia. lia.
    + rewrite uint_of_int_id; lia.
  - intros Hk Hle Hlatest. unfold IncrementJobTries.
    destruct (decide (0 < - k)%Z) as [?|_]; [lia|].
    rewrite int_of_uint_id by lia.
    rewrite int_add_id by (unfold is_int; lia).
    rewrite decide_False by lia.
    eexists. split; [reflexivity|]. simpl. split; [done|].
    rewrite tries_insert, decide_True by done.
    rewrite uint_of_int_id; lia.
Qed.

Lemma IncrementJobTries_adds_delta_witness :
  let c := mkChain (JobChain.mk "req" ∅ ∅ Byte.x02 0)
             ∅ {[ "job1" := 2%N ]} {[ "job1" := 3%N ]} in
  (∃ c', IncrementJobTries c "job1" 2 = (c', Return tt)
         ∧ Z.of_N (tries (totalJobTries c') "job1") = 5%Z
         ∧ Z.of_N (tries (latestRunJobTries c') "job1") = 4%Z)
  ∧ (∃ c', IncrementJobTries c "job1" (- 2) = (c', Return tt)
           ∧ totalJobTries c' = totalJobTries c
           ∧ Z.of_N (tries (latestRunJobTries c') "job1") = 0%Z).
Proof.
  intros c.
  destruct (IncrementJobTries_adds_delta c "job1" 2) as [Hup Hdown].
  split; [apply Hup | apply Hdown]; vm_compute; congruence.
Defined.

(** C6 as stated fails at the ends of [int] and [uint].  With
    [latestRunJobTries[id]] at the largest [int], adding 1 wraps [cur+delta]
    below zero and the call panics; with [totalJobTries[id]] at the largest
    [uint], adding 1 wraps it to zero; with [latestRunJobTries[id]] above
    the largest [int], [cur] is negative and even a delta of 0 panics. *)
Lemma IncrementJobTries_adds_delta_counterexample :
  let chainWith latest total :=
    mkChain (JobChain.mk "req" ∅ ∅ Byte.x02 0)
      ∅ {[ "job1" := latest ]} {[ "job1" := total ]} in
  let c1 := chainWith 9223372036854775807%N 9223372036854775807%N in
  let c2 := chainWith 0%N 18446744073709551615%N in
  let c3 := chainWith 9223372036854775808%N 9223372036854775808%N in
  ((0 < 1)%Z
   ∧ snd (IncrementJobTries c1 "job1" 1) = Panic
   ∧ tries (latestRunJobTries (fst (IncrementJobTries c1 "job1" 1))) "job1"
     = tries (latestRunJobTries c1) "job1")
  ∧ ((0 < 1)%Z
     ∧ snd (IncrementJobTries c2 "job1" 1) = Return tt
     ∧ tries (totalJobTries (fst (IncrementJobTries c2 "job1" 1))) "job1" = 0%N)
  ∧ ((0 ≤ 0)%Z
     ∧ (0 ≤ Z.of_N (tries (latestRunJobTries c3) "job1"))%Z
     ∧ snd (IncrementJobTries c3 "job1" (- 0)) = Panic).
Proof. split_and!; first [lia | vm_compute; reflexivity]. Qed.

(** [IncrementJobTries] panics when the delta would take
    [latestRunJobTries[id]] below zero. *)
Lemma IncrementJobTries_below_zero_panics (c : Chain) (id : string) (delta : Z) :
  is_int delta →
  (Z.of_N (tries (latestRunJobTries c) id) + delta < 0)%Z →
  snd (IncrementJobTries c id delta) = Panic.
Proof.
  intros Hint Hneg. unfold IncrementJobTries.
  destruct (decide (0 < delta)%Z) as [?|_]; [lia|].
  by rewrite decide_True by by apply int_add_negative.
Qed.

(** [IncrementFinishedJobs] panics when the delta would take
    [FinishedJobs] below zero. *)
Lemma IncrementFinishedJobs_below_zero_panics (c : Chain) (delta : Z) :
  is_int delta →
  (Z.of_N (FinishedJobs c) + delta < 0)%Z →
  snd (IncrementFinishedJobs c delta) = Panic.
Proof.
  intros Hint Hneg. unfold IncrementFinishedJobs.
  by rewrite decide_True by by apply int_add_negative.
Qed.

(** [IncrementSequenceTries] has no such check: it returns whatever the
    delta. *)
Lemma IncrementSequenceTries_returns (c : Chain) (id : string) (delta : Z) :
  snd (IncrementSequenceTries c id delta) = Return tt.
Proof. reflexivity. Qed.

(** C7. A delta that takes the counter below zero is fatal for
    [IncrementJobTries] and [IncrementFinishedJobs], but not for
    [IncrementSequenceTries]: with one sequence try counted, a delta of -2
    returns and leaves 2^64 - 1 tries, after which the sequence cannot be
    retried. *)
Theorem IncrementSequenceTries_below_zero_wraps :
  let c :=
    mkChain
      (JobChain.mk "req"
         {[ "job1" := sample.newJob "job1" Byte.x03 2;
            "job2" := sample.newJob "job2" Byte.x04 0 ]}
         {[ "job1" := ["job2"] ]} Byte.x02 0)
      {[ "job1" := 1%N ]} ∅ ∅ in
  let c' := fst (IncrementSequenceTries c "job2" (- 2)) in
  (Z.of_N (SequenceTries c "job2") + - 2 < 0)%Z
  ∧ snd (IncrementSequenceTries c "job2" (- 2)) = Return tt
  ∧ SequenceTries c' "job2" = 18446744073709551615%N
  ∧ CanRetrySequence c "job2" = true
  ∧ CanRetrySequence c' "job2" = false.
Proof. split_and!; [vm_compute; reflexivity | reflexivity..]. Qed.

(** ** State mutators *)

(** C10. For a job id present in [Jobs], [SetJobState(id, s)] sets the
    [State] field of that job to [s] and changes nothing else: not the
    other fields of the job, not the other jobs, not the adjacency list,
    the request id, the finished jobs count or the chain state, and none of
    the three try maps. *)
Theorem SetJobState_frame (c : Chain) (id : string) (s : Byte.byte) (j : Job.t) :
  Jobs c !! id = Some j →
  (∃ j', Jobs (SetJobState c id s) !! id = Some j'
         ∧ Job.State j' = s
         ∧ Job.Id j' = Job.Id j
         ∧ Job.SequenceId j' = Job.SequenceId j
         ∧ Job.SequenceRetry j' = Job.SequenceRetry j
         ∧ Job.Retry j' = Job.Retry j
         ∧ Job.Data j' = Job.Data j)
  ∧ (∀ id', id' ≠ id → Jobs (SetJobState c id s) !! id' = Jobs c !! id')
  ∧ AdjacencyList (SetJobState c id s) = AdjacencyList c
  ∧ RequestId (SetJobState c id s) = RequestId c
  ∧ FinishedJobs (SetJobState c id s) = FinishedJobs c
  ∧ State (SetJobState c id s) = State c
  ∧ sequenceTries (SetJobState c id s) = sequenceTries c
  ∧ latestRunJobTries (SetJobState c id s) = latestRunJobTries c
  ∧ totalJobTries (SetJobState c id s) = totalJobTries c.
Proof.
  intros Hj. split_and!; try reflexivity.
  - exists (Job.withState j s). split_and!; try reflexivity.
    unfold SetJobState, job. rewrite Hj. simpl. unfold Jobs. simpl.
    apply lookup_insert_eq.
  - intros id' Hne. unfold SetJobState, Jobs. simpl.
    by apply lookup_insert_ne.
Qed.

Lemma SetJobState_frame_witness :
  let c := sample.diamond Byte.x03 Byte.x02 Byte.x01 Byte.x01 in
  JobState (SetJobState c "job2" Byte.x03) "job2" = Byte.x03
  ∧ Jobs (SetJobState c "job2" Byte.x03) !! "job3" = Jobs c !! "job3".
Proof.
  intros c.
  destruct (SetJobState_frame c "job2" Byte.x03 (sample.newJob "job2" Byte.x02 0))
    as ((j' & Hj' & Hs & _) & Hother & _); [reflexivity|].
  split.
  - unfold JobState, job. by rewrite Hj'.
  - by apply Hother.
Defined.

(** ** The arguments of [find] *)

Section find_arguments.
Import cmd.

Lemma validFilters_true (filter : string) :
  default false (validFilters !! filter) = true ↔ filter ∈ filterNames.
Proof.
  destruct (decide (filter ∈ filterNames)) as [Hin|Hout].
  - split; [done|]. intros _. unfold filterNames in Hin.
    repeat (apply elem_of_cons in Hin as [->|Hin]; [reflexivity|]).
    by apply elem_of_nil in Hin.
  - split; [|done]. unfold validFilters.
    rewrite (not_elem_of_list_to_map_1 _ filter); [done|]. exact Hout.
Qed.

Lemma holds_insert filters earlier arg filter value :
  holds filters earlier →
  cut "="%char arg = Some (filter, value) →
  holds (<[filter := value]> filters) (earlier ++ [arg]).
Proof.
  intros Hholds Hcut f. rewrite lookup_insert_is_Some, (Hholds f). split.
  - intros [<-|[_ (arg' & Hin & Hname)]].
    + exists arg. split; [apply elem_of_app; right; by left|].
      unfold filterName. by rewrite Hcut.
    + exists arg'. split; [apply elem_of_app; by left | done].
  - intros (arg' & [Hin|Hin]%elem_of_app & Hname).
    + destruct (decide (filter = f)); [by left|]. right. eauto.
    + apply list_elem_of_singleton in Hin as ->.
      unfold filterName in Hname. rewrite Hcut in Hname. left. by simplify_eq/=.
Qed.

(** The parse loop returns an error exactly when one of the arguments it
    is given is malformed, names an unknown filter, or repeats a filter
    already held. *)
Lemma Prepare_parse_rejects (args : list string) :
  ∀ filters earlier,
    holds filters earlier →
    match Prepare_parse args filters with
    | inl e =>
        isParseError e
        ∧ ∃ i arg, args !! i = Some arg
                   ∧ (malformed arg ∨ unknownFilter arg
                      ∨ repeatedFilter (earlier ++ take i args) arg)
    | inr _ =>
        ∀ i arg, args !! i = Some arg →
                 ¬ (malformed arg ∨ unknownFilter arg
                    ∨ repeatedFilter (earlier ++ take i args) arg)
    end.
Proof.
  induction args as [|arg rest IH]; intros filters earlier Hholds; simpl.
  - intros i arg Hi. by rewrite lookup_nil in Hi.
  - unfold SplitN_2. destruct (cut "="%char arg) as [[filter value]|] eqn:Hcut; simpl.
    + assert (Hname : filterName arg = Some filter)
        by (unfold filterName; by rewrite Hcut).
      destruct (default false (validFilters !! filter)) eqn:Hvalid; simpl.
      * apply validFilters_true in Hvalid.
        destruct (decide (is_Some (filters !! filter))) as [Hseen|Hnew].
        -- split; [done|]. exists 0, arg. split; [done|]. right. right.
           apply Hholds in Hseen as (arg' & Hin & Hname').
           exists filter, arg'. simpl. by rewrite app_nil_r.
        -- specialize (IH (<[filter := value]> filters) (earlier ++ [arg])
                         (holds_insert _ _ _ _ _ Hholds Hcut)).
           destruct (Prepare_parse rest (<[filter := value]> filters)) as [e|ok].
           ++ destruct IH as (He & i & arg_i & Hi & Hrej). split; [done|].
              exists (Datatypes.S i), arg_i. split; [done|]. simpl.
              by rewrite <- app_assoc in Hrej.
           ++ intros [|i] arg_i Hi; simpl in *.
              ** simplify_eq. rewrite app_nil_r.
                 intros [Hm|[(f & Hf & Hout)|(f & arg' & Hf & Hin & Hname')]].
                 --- unfold malformed, SplitN_2 in Hm. by rewrite Hcut in Hm.
                 --- by simplify_eq.
                 --- simplify_eq. apply Hnew, Hholds. eauto.
              ** specialize (IH i arg_i Hi). by rewrite <- app_assoc in IH.
      * split; [done|]. exists 0, arg. split; [done|]. right. left.
        exists filter. split; [done|]. rewrite <- validFilters_true.
        by rewrite Hvalid.
    + split; [done|]. exists 0, arg. split; [done|]. left.
      unfold malformed, SplitN_2. by rewrite Hcut.
Qed.

Section Prepare.
Variable Time : Type.
Variable zeroTime : Time.
Variable time_Parse : string → string → option Time.
Variable ParseUint : string → option N.
Variable StateValue : gmap string Byte.byte.

Lemma Prepare_states_error names states e :
  Prepare_states StateValue names states = inl e → ¬ isParseError e.
Proof.
  revert states. induction names as [|state rest IH]; intros states; simpl; [done|].
  destruct (StateValue !! state); [apply IH|]. intros [= <-]; simpl; tauto.
Qed.

Lemma Prepare_time_error value e :
  Prepare_time Time zeroTime time_Parse value = inl e → ¬ isParseError e.
Proof.
  unfold Prepare_time. repeat case_decide; try done.
  - intros [= <-]; simpl; tauto.
  - destruct (time_Parse _ _); [done|]. intros [= <-]; simpl; tauto.
Qed.

(** The second half of [Prepare] returns none of the errors of the parse
    loop. *)
Lemma Prepare_process_error filters e :
  Prepare_process Time zeroTime time_Parse ParseUint StateValue filters = inl e →
  ¬ isParseError e.
Proof.
  unfold Prepare_process.
  destruct (if decide (0 < String.length (filterValue filters "states"))%nat
            then _ else _) as [e1|states] eqn:Hstates.
  { intros [= <-]. case_decide; [|done]. by eapply Prepare_states_error. }
  destruct (Prepare_time _ _ _ (filterValue filters "since")) as [e2|since] eqn:Hsince.
  { intros [= <-]. by eapply Prepare_time_error. }
  destruct (Prepare_time _ _ _ (filterValue filters "until")) as [e3|until] eqn:Huntil.
  { intros [= <-]. by eapply Prepare_time_error. }
  clear Hstates Hsince Huntil.
  repeat case_match; try done; intros [= <-]; simplify_eq; simpl; tauto.
Qed.

(** C9. [Prepare] returns an error if an argument does not split on '='
    into exactly two parts, names a filter outside type, states, user,
    since, until, limit and offset, or repeats the filter of an earlier
    argument; when no argument does, the error [Prepare] returns, if any,
    is none of these three. *)
Theorem Prepare_rejects_arguments (args : list string) :
  (rejected args →
   ∃ e, Prepare Time zeroTime time_Parse ParseUint StateValue args = inl e
        ∧ isParseError e)
  ∧ (¬ rejected args →
     ∀ e, Prepare Time zeroTime time_Parse ParseUint StateValue args = inl e →
          ¬ isParseError e).
Proof.
  assert (Hholds : holds ∅ []).
  { intros f. rewrite lookup_empty. split.
    - by intros ?%is_Some_None.
    - by intros (? & ?%elem_of_nil & _). }
  pose proof (Prepare_parse_rejects args ∅ [] Hholds) as Hparse.
  unfold Prepare, rejected.
  destruct (Prepare_parse args ∅) as [e|filters]; simpl in Hparse.
  - destruct Hparse as [He Hrej]. split.
    + intros _. eauto.
    + intros Hnot. by destruct Hnot.
  - split.
    + intros (i & arg & Hi & Hrej). by destruct (Hparse i arg Hi).
    + intros _ e. apply Prepare_process_error.
Qed.

End Prepare.

Lemma Prepare_rejects_arguments_witness :
  let Prepare := Prepare unit tt (λ _ _, None) (λ _, None) ∅ in
  (∃ e, Prepare ["type=x"; "user=me"; "type=y"] = inl e ∧ isParseError e)
  ∧ (∀ e, Prepare ["limit=ten"] = inl e → ¬ isParseError e).
Proof.
  split.
  - apply (Prepare_rejects_arguments unit tt (λ _ _, None) (λ _, None) ∅).
    exists 2, "type=y". split; [reflexivity|]. right. right.
    exists "type", "type=x". split_and!; [reflexivity | by left | reflexivity].
  - apply (Prepare_rejects_arguments unit tt (λ _ _, None) (λ _, None) ∅).
    intros ([|i] & arg & Hi & Hrej); [|done]. simplify_eq/=.
    destruct Hrej as [Hm|[(f & Hf & Hout)|(f & arg' & _ & Hin & _)]].
    + by apply Hm.
    + vm_compute in Hf. simplify_eq. apply Hout.
      apply (bool_decide_unpack _). vm_compute. exact I.
    + by apply elem_of_nil in Hin.
Defined.

End find_arguments.

(** ** Suspend and resume *)

(** The loop of [NewChain] writes every job it visits and no other. *)
Lemma NewChain_loop_lookup (order : list (string * Job.t)) :
  ∀ (jobs : gmap string Job.t) (id : string),
    NoDup order.*1 →
    NewChain_loop order jobs !! id =
    match (list_to_map order : gmap string Job.t) !! id with
    | Some j => Some (NewChain_job j)
    | None => jobs !! id
    end.
Proof.
  induction order as [|[jobName j] rest IH]; intros jobs id Hnodup; simpl.
  - by rewrite lookup_empty.
  - apply NoDup_cons in Hnodup as [Hfresh Hnodup].
    rewrite IH by done. destruct (decide (jobName = id)) as [->|Hne].
    + rewrite lookup_insert_eq.
      apply (not_elem_of_list_to_map_1 (M := gmap string)) in Hfresh.
      simpl in Hfresh. rewrite Hfresh. by rewrite lookup_insert_eq.
    + rewrite (lookup_insert_ne (list_to_map rest)) by done.
      destruct (list_to_map rest !! id); [done|]. by rewrite lookup_insert_ne.
Qed.

(** Whatever the visiting order, the loop of [NewChain] gives every job of
    the map a data map and keeps the rest. *)
Lemma NewChain_loop_fmap (jobs : gmap string Job.t) order :
  ranges jobs order → NewChain_loop order jobs = NewChain_job <$> jobs.
Proof.
  unfold ranges. intros Horder.
  assert (Hnodup : NoDup order.*1).
  { rewrite Horder. apply NoDup_fst_map_to_list. }
  apply map_eq. intros id. rewrite NewChain_loop_lookup by done.
  rewrite (list_to_map_proper order (map_to_list jobs)) by done.
  rewrite list_to_map_to_list, lookup_fmap. by destruct (jobs !! id).
Qed.

(** Jobs that have a data map are left as they are. *)
Lemma NewChain_job_fmap_id (jobs : gmap string Job.t) :
  map_Forall (λ _ j, Job.Data j ≠ None) jobs → NewChain_job <$> jobs = jobs.
Proof.
  intros Hdata. apply map_eq. intros id. rewrite lookup_fmap.
  destruct (jobs !! id) as [j|] eqn:Hj; [|done]. simpl. f_equal.
  unfold NewChain_job. rewrite decide_False; [done|]. by apply (Hdata id).
Qed.

(** [NewChain] writes the [Data] field only. *)
Lemma NewChain_job_fields (j : Job.t) :
  Job.Id (NewChain_job j) = Job.Id j
  ∧ Job.State (NewChain_job j) = Job.State j
  ∧ Job.SequenceId (NewChain_job j) = Job.SequenceId j
  ∧ Job.SequenceRetry (NewChain_job j) = Job.SequenceRetry j
  ∧ Job.Retry (NewChain_job j) = Job.Retry j.
Proof. unfold NewChain_job. by case_decide. Qed.

Section resumed.
Context {S : States}.
Variable v : Chain.

Lemma resumed_job (id : string) :
  Job.Id (job (Jobs (resumed v)) id) = Job.Id (job (Jobs v) id)
  ∧ Job.State (job (Jobs (resumed v)) id) = Job.State (job (Jobs v) id)
  ∧ Job.SequenceId (job (Jobs (resumed v)) id) = Job.SequenceId (job (Jobs v) id)
  ∧ Job.SequenceRetry (job (Jobs (resumed v)) id)
    = Job.SequenceRetry (job (Jobs v) id).
Proof.
  unfold job, resumed, Jobs. simpl. rewrite lookup_fmap.
  destruct (JobChain.Jobs (jobChain v) !! id) as [j|]; simpl; [|done].
  pose proof (NewChain_job_fields j). tauto.
Qed.

Lemma resumed_previousJobs adj (id : string) :
  previousJobs_in adj (resumed v) id = NewChain_job <$> previousJobs_in adj v id.
Proof.
  unfold previousJobs_in, resumed, Jobs. simpl.
  induction adj as [|[curJob nextJobs] rest IH]; csimpl; [done|].
  rewrite lookup_fmap. destruct (contains nextJobs id); [|done].
  destruct (JobChain.Jobs (jobChain v) !! curJob); csimpl; by rewrite IH.
Qed.

Lemma resumed_isRunnable_loop (prev : list Job.t) :
  isRunnable_loop (NewChain_job <$> prev) = isRunnable_loop prev.
Proof.
  induction prev as [|j rest IH]; csimpl; [done|].
  destruct (NewChain_job_fields j) as (_ & -> & _). by rewrite IH.
Qed.

Lemma resumed_isRunnable (id : string) : isRunnable (resumed v) id = isRunnable v id.
Proof.
  unfold isRunnable, isRunnable_in.
  destruct (resumed_job id) as (_ & -> & _).
  by rewrite resumed_previousJobs, resumed_isRunnable_loop.
Qed.

Lemma resumed_sequenceStartJob (id : string) :
  Job.Id (sequenceStartJob (resumed v) id) = Job.Id (sequenceStartJob v id)
  ∧ Job.SequenceRetry (sequenceStartJob (resumed v) id)
    = Job.SequenceRetry (sequenceStartJob v id).
Proof.
  unfold sequenceStartJob. destruct (resumed_job id) as (_ & _ & -> & _).
  destruct (resumed_job (Job.SequenceId (job (Jobs v) id))) as (-> & _ & _ & ->).
  done.
Qed.

Lemma resumed_canRetrySequence (id : string) :
  canRetrySequence (resumed v) id = canRetrySequence v id.
Proof.
  unfold canRetrySequence.
  by destruct (resumed_sequenceStartJob id) as [-> ->].
Qed.

Lemma resumed_IsDoneRunning_loop (jobs : list Job.t) (complete : bool) :
  IsDoneRunning_loop (resumed v) (NewChain_job <$> jobs) complete
  = IsDoneRunning_loop v jobs complete.
Proof.
  revert complete. induction jobs as [|j rest IH]; intros complete; csimpl; [done|].
  destruct (NewChain_job_fields j) as (-> & -> & _).
  by rewrite resumed_isRunnable, resumed_canRetrySequence, !IH.
Qed.

Lemma resumed_FailedJobs_loop (jobs : list Job.t) (n : N) :
  FailedJobs_loop (NewChain_job <$> jobs) n = FailedJobs_loop jobs n.
Proof.
  revert n. induction jobs as [|j rest IH]; intros n; csimpl; [done|].
  destruct (NewChain_job_fields j) as (_ & -> & _). by rewrite !IH.
Qed.

(** The orders in which the jobs of the resumed chain may be visited are
    those of the chain, job by job. *)
Lemma resumed_ranges order :
  ranges (Jobs v) order →
  ranges (Jobs (resumed v)) (prod_map id NewChain_job <$> order).
Proof.
  unfold ranges, resumed, Jobs. simpl. intros ->. by rewrite map_to_list_fmap.
Qed.

(** What the accessors return on the resumed chain, in terms of the chain
    it was resumed from: the same, but for the data maps of the jobs
    returned. *)
Lemma resumed_agrees :
  RequestId (resumed v) = RequestId v
  ∧ State (resumed v) = State v
  ∧ FinishedJobs (resumed v) = FinishedJobs v
  ∧ (∀ order, FailedJobs_in (prod_map id NewChain_job <$> order) (resumed v)
              = FailedJobs_in order v)
  ∧ (∀ id, JobState (resumed v) id = JobState v id)
  ∧ (∀ id, JobTries (resumed v) id = JobTries v id)
  ∧ (∀ id, SequenceTries (resumed v) id = SequenceTries v id)
  ∧ (∀ id, IsRunnable (resumed v) id = IsRunnable v id)
  ∧ (∀ order, IsDoneRunning_in (prod_map id NewChain_job <$> order) (resumed v)
              = IsDoneRunning_in order v)
  ∧ (∀ id, CanRetrySequence (resumed v) id = CanRetrySequence v id)
  ∧ (∀ id, IsSequenceStartJob (resumed v) id = IsSequenceStartJob v id).
Proof.
  split_and!; try reflexivity.
  - intros order. unfold FailedJobs_in.
    rewrite <- list_fmap_compose.
    rewrite (list_fmap_ext _ (NewChain_job ∘ snd) order) by by intros ? [].
    by rewrite list_fmap_compose, resumed_FailedJobs_loop.
  - intros id. unfold JobState. by destruct (resumed_job id) as (_ & -> & _).
  - intros id. unfold SequenceTries. simpl.
    by destruct (resumed_job id) as (_ & _ & -> & _).
  - intros id. apply resumed_isRunnable.
  - intros order. unfold IsDoneRunning_in.
    rewrite <- list_fmap_compose.
    rewrite (list_fmap_ext _ (NewChain_job ∘ snd) order) by by intros ? [].
    by rewrite list_fmap_compose, resumed_IsDoneRunning_loop.
  - intros id. apply resumed_canRetrySequence.
  - intros id. unfold IsSequenceStartJob.
    by destruct (resumed_job id) as (_ & _ & -> & _).
Qed.

End resumed.

(** C8. A chain built by [NewChain] from the suspended snapshot of a chain
    [c] shares the job chain and the try maps of [c]: called after the
    construction, every public accessor returns the same on both.  What
    they denote is what [c] denoted before, each job without data having
    been given an empty data map; when every job had data, as [NewChain]
    leaves them, it is exactly what [c] denoted. *)
Theorem NewChain_ToSuspended_agrees
    {S : States} (σ : shared.Store) (c : shared.Chain) (v : Chain)
    (order : list (string * Job.t)) :
  shared.load σ c = Some v →
  ranges (Jobs v) order →
  ∃ sjc σ' c',
    shared.ToSuspended σ c = Return sjc
    ∧ shared.NewChain_in order σ (shared.JobChain sjc) (shared.SequenceTries sjc)
        (shared.TotalJobTries sjc) (shared.LatestRunJobTries sjc)
      = Return (σ', c')
    ∧ shared.load σ' c' = Some (resumed v)
    ∧ (map_Forall (λ _ j, Job.Data j ≠ None) (Jobs v) → shared.load σ' c' = Some v)
    ∧ shared.call RequestId σ' c' = shared.call RequestId σ' c
    ∧ shared.call State σ' c' = shared.call State σ' c
    ∧ shared.call FinishedJobs σ' c' = shared.call FinishedJobs σ' c
    ∧ (∀ visit, shared.call (FailedJobs_in visit) σ' c'
                = shared.call (FailedJobs_in visit) σ' c)
    ∧ (∀ id, shared.call (λ v, JobState v id) σ' c'
             = shared.call (λ v, JobState v id) σ' c)
    ∧ (∀ id, shared.call (λ v, JobTries v id) σ' c'
             = shared.call (λ v, JobTries v id) σ' c)
    ∧ (∀ id, shared.call (λ v, SequenceTries v id) σ' c'
             = shared.call (λ v, SequenceTries v id) σ' c)
    ∧ (∀ id, shared.call (λ v, NextJobs v id) σ' c'
             = shared.call (λ v, NextJobs v id) σ' c)
    ∧ (∀ id, shared.call (λ v, IsRunnable v id) σ' c'
             = shared.call (λ v, IsRunnable v id) σ' c)
    ∧ (∀ visit, shared.call (RunnableJobs_in visit) σ' c'
                = shared.call (RunnableJobs_in visit) σ' c)
    ∧ (∀ visit, shared.call (IsDoneRunning_in visit) σ' c'
                = shared.call (IsDoneRunning_in visit) σ' c)
    ∧ (∀ id, shared.call (λ v, CanRetrySequence v id) σ' c'
             = shared.call (λ v, CanRetrySequence v id) σ' c)
    ∧ (∀ id, shared.call (λ v, SequenceStartJob v id) σ' c'
             = shared.call (λ v, SequenceStartJob v id) σ' c)
    ∧ (∀ id, shared.call (λ v, IsSequenceStartJob v id) σ' c'
             = shared.call (λ v, IsSequenceStartJob v id) σ' c).
Proof.
  intros Hload Horder. unfold shared.load in Hload.
  destruct (shared.jobChains σ !! shared.jobChain c) as [jc|] eqn:Hjc;
    [|done].
  simpl in Hload. injection Hload as <-. simpl in Horder. unfold Jobs in Horder.
  simpl in Horder.
  eexists _, _, _. split.
  { unfold shared.ToSuspended. rewrite Hjc. reflexivity. }
  split.
  { unfold shared.NewChain_in. simpl. rewrite Hjc. reflexivity. }
  rewrite (NewChain_loop_fmap _ _ Horder).
  match goal with
  | |- shared.load ?s ?c' = _ ∧ _ =>
      assert (Hsame : shared.load s c' = shared.load s c)
        by reflexivity;
      assert (Hnew : shared.load s c'
                     = Some (withJobs
                               (mkChain jc
                                  (shared.triesAt σ (shared.sequenceTries c))
                                  (shared.triesAt σ (shared.latestRunJobTries c))
                                  (shared.triesAt σ (shared.totalJobTries c)))
                               (NewChain_job <$> JobChain.Jobs jc)))
  end.
  { unfold shared.load. simpl. rewrite lookup_insert_eq. reflexivity. }
  split; [exact Hnew|]. split.
  { intros Hdata. rewrite Hnew. unfold Jobs in Hdata. simpl in Hdata.
    rewrite (NewChain_job_fmap_id _ Hdata). by destruct jc. }
  unfold shared.call. rewrite Hsame. by split_and!.
Qed.

Lemma NewChain_ToSuspended_agrees_witness :
  ∃ σ' c',
    shared.NewChain_in
      (map_to_list (JobChain.Jobs (jobChain (sample.diamond Byte.x03 Byte.x06 Byte.x03 Byte.x01))))
      sample.store 1%positive 2%positive 4%positive 3%positive
    = Return (σ', c')
    ∧ c' ≠ sample.stored
    ∧ shared.call (IsDoneRunning (S := sample.states)) σ' c' = Return (Return (true, false))
    ∧ shared.call (IsDoneRunning (S := sample.states)) σ' sample.stored
      = Return (Return (true, false)).
Proof.
  destruct (NewChain_ToSuspended_agrees (S := sample.states)
              sample.store sample.stored
              (mkChain (jobChain (sample.diamond Byte.x03 Byte.x06 Byte.x03 Byte.x01))
                 {[ "job1" := 1%N ]} {[ "job1" := 1%N; "job2" := 1%N ]}
                 {[ "job1" := 2%N; "job2" := 1%N ]})
              (map_to_list (JobChain.Jobs (jobChain (sample.diamond Byte.x03 Byte.x06 Byte.x03 Byte.x01)))))
    as (sjc & σ' & c' & Hsuspend & Hnew & _ & _ & _ & _ & _ & _ & _ & _ & _
        & _ & _ & _ & Hdone & _);
    [reflexivity | unfold ranges; reflexivity |].
  injection Hsuspend as <-. exists σ', c'. split; [exact Hnew|].
  specialize (Hdone
    (map_to_list (JobChain.Jobs (jobChain (sample.diamond Byte.x03 Byte.x06 Byte.x03 Byte.x01))))).
  injection Hnew as <- <-.
  split; [discriminate|]. split; [|symmetry in Hdone]; vm_compute; reflexivity.
Defined.

(** * Further properties of the chain *)

Import shape.

(** ** The verdict of the completion oracle *)

Section verdict_lemmas.
Context {S : States}.

Lemma IsDoneRunning_loop_not_false_true (c : Chain) jobs complete :
  IsDoneRunning_loop c jobs complete ≠ Return (false, true).
Proof.
  revert complete. induction jobs as [|j rest IH]; intros complete; simpl; [done|].
  repeat case_decide; try done.
  - by destruct (isRunnable c (Job.Id j)).
  - by destruct (canRetrySequence c (Job.Id j)).
Qed.

(** A loop that runs to its end has met job states only. *)
Lemma IsDoneRunning_loop_done_valid (c : Chain) jobs complete complete' :
  IsDoneRunning_loop c jobs complete = Return (true, complete') →
  ∀ j, j ∈ jobs → isJobState (Job.State j).
Proof.
  revert complete. induction jobs as [|j rest IH]; intros complete Hdone j' Hin.
  - by apply elem_of_nil in Hin.
  - simpl in Hdone. apply elem_of_cons in Hin as [->|Hin].
    + apply isJobState_cases. revert Hdone. repeat case_decide; try tauto. done.
    + revert Hdone. repeat case_decide; try done; eauto.
      * destruct (isRunnable c (Job.Id j)); [done | eauto].
      * destruct (canRetrySequence c (Job.Id j)); [done | eauto].
Qed.

Lemma elem_of_RunnableJobs_loop (c : Chain) visit (j : Job.t) :
  j ∈ RunnableJobs_loop c visit ↔
  ∃ id, (id, j) ∈ visit ∧ IsRunnable c id = true.
Proof.
  induction visit as [|[jobId j0] rest IH]; simpl.
  - split; [by intros ?%elem_of_nil | by intros (? & ?%elem_of_nil & _)].
  - destruct (IsRunnable c jobId) eqn:Hr; simpl.
    + rewrite elem_of_cons, IH. split.
      * intros [->|(id & Hin & Hid)]; [exists jobId | exists id];
          rewrite elem_of_cons; auto.
      * intros (id & [Heq|Hin]%elem_of_cons & Hid).
        -- left. congruence.
        -- right. eauto.
    + rewrite IH. split.
      * intros (id & Hin & Hid). exists id. rewrite elem_of_cons. auto.
      * intros (id & [Heq|Hin]%elem_of_cons & Hid); [|eauto].
        simplify_eq. congruence.
Qed.

End verdict_lemmas.

(** X1. With job states only, [IsDoneRunning] returns (false, false) when
    some job keeps the chain running (running, pending and runnable, or
    failed with a sequence that can retry), and otherwise (true, complete)
    with [complete] true iff every job is COMPLETE; the order in which the
    jobs are visited plays no part. *)
Theorem IsDoneRunning_verdict
    {S : States} (c : Chain) (order : list (string * Job.t)) :
  distinct S →
  ranges (Jobs c) order →
  validStates c →
  ((∃ id j, Jobs c !! id = Some j ∧ keepsRunning c j) →
   IsDoneRunning_in order c = Return (false, false))
  ∧ (map_Forall (λ _ j, ¬ keepsRunning c j) (Jobs c) →
     IsDoneRunning_in order c = Return (true, bool_decide (allComplete c))).
Proof.
  intros Hd Horder Hvalid.
  assert (Hstates : ∀ j, j ∈ order.*2 → isJobState (Job.State j)).
  { intros j [id Hj]%(ranges_values _ _ _ Horder). by apply (Hvalid id). }
  split.
  - intros (id & j & Hj & Hrun).
    apply IsDoneRunning_loop_keepsRunning; [done..|].
    exists j. split; [|done]. apply (ranges_values _ _ _ Horder). eauto.
  - intros Hnone. unfold IsDoneRunning_in.
    destruct (IsDoneRunning_loop_done c (order.*2) true Hstates) as [b Hb].
    { intros j [id Hj]%(ranges_values _ _ _ Horder). by apply (Hnone id). }
    rewrite Hb. do 2 f_equal.
    pose proof (IsDoneRunning_loop_true_true c (order.*2) true) as Hiff.
    destruct b.
    + symmetry. apply bool_decide_eq_true. apply Hiff in Hb as [_ Hall].
      intros id j Hj. apply Hall, (ranges_values _ _ _ Horder). eauto.
    + symmetry. apply bool_decide_eq_false. intros Hall.
      assert (Hno : Return (true, false) = Return (true, true) :> outcome (bool * bool));
        [|done].
      rewrite <- Hb. apply Hiff. split; [done|].
      intros j [id Hj]%(ranges_values _ _ _ Horder). by apply (Hall id).
Qed.

Lemma IsDoneRunning_verdict_witness :
  IsDoneRunning (S := sample.states)
    (sample.diamond Byte.x03 Byte.x04 Byte.x03 Byte.x01)
  = Return (false, false)
  ∧ IsDoneRunning (S := sample.states)
      (sample.diamond Byte.x03 Byte.x06 Byte.x03 Byte.x01)
    = Return (true, false).
Proof.
  split.
  - apply (IsDoneRunning_verdict (S := sample.states)).
    + apply (bool_decide_unpack _). vm_compute. exact I.
    + unfold ranges. reflexivity.
    + apply (bool_decide_unpack _). vm_compute. exact I.
    + exists "job2", (sample.newJob "job2" Byte.x04 0). split; [reflexivity|].
      right. right. split; [by left | reflexivity].
  - apply (IsDoneRunning_verdict (S := sample.states)).
    + apply (bool_decide_unpack _). vm_compute. exact I.
    + unfold ranges. reflexivity.
    + apply (bool_decide_unpack _). vm_compute. exact I.
    + apply (bool_decide_unpack _). vm_compute. exact I.
Defined.

(** X2. Whatever the job states, [IsDoneRunning] never returns
    (false, true), and it returns (true, _) only for a chain whose jobs are
    all in one of the six job states: with any other state in the chain
    the call panics or returns (false, false). *)
Theorem IsDoneRunning_outcomes
    {S : States} (c : Chain) (order : list (string * Job.t)) :
  ranges (Jobs c) order →
  IsDoneRunning_in order c ≠ Return (false, true)
  ∧ (∀ complete, IsDoneRunning_in order c = Return (true, complete) →
                 validStates c)
  ∧ (¬ validStates c →
     IsDoneRunning_in order c = Panic
     ∨ IsDoneRunning_in order c = Return (false, false)).
Proof.
  intros Horder.
  assert (Hvalid : ∀ complete, IsDoneRunning_in order c = Return (true, complete) →
                               validStates c).
  { intros complete Hdone id j Hj.
    apply (IsDoneRunning_loop_done_valid c _ _ _ Hdone).
    apply (ranges_values _ _ _ Horder). eauto. }
  split_and!.
  - apply IsDoneRunning_loop_not_false_true.
  - exact Hvalid.
  - intros Hnot.
    pose proof (IsDoneRunning_loop_not_false_true c (order.*2) true) as Hft.
    unfold IsDoneRunning_in in *.
    destruct (IsDoneRunning_loop c (order.*2) true) as [[[] []]|] eqn:Hres; auto.
    + destruct Hnot. by apply (Hvalid true).
    + destruct Hnot. by apply (Hvalid false).
    + done.
Qed.

Lemma IsDoneRunning_outcomes_witness :
  IsDoneRunning (S := sample.states) (sample.pair Byte.x02 Byte.x07) = Panic
  ∨ IsDoneRunning (S := sample.states) (sample.pair Byte.x02 Byte.x07)
    = Return (false, false).
Proof.
  apply (IsDoneRunning_outcomes (S := sample.states)).
  - unfold ranges. reflexivity.
  - apply (bool_decide_unpack _). vm_compute. exact I.
Defined.

(** ** Runnable jobs and the oracle *)

(** A loop that returns (false, false) has met a job that keeps the chain
    running. *)
Lemma IsDoneRunning_loop_false_false {S : States} (c : Chain) jobs complete :
  IsDoneRunning_loop c jobs complete = Return (false, false) →
  ∃ j, j ∈ jobs ∧ keepsRunning c j.
Proof.
  revert complete. induction jobs as [|j rest IH]; intros complete; simpl; [done|].
  assert (Hrest : ∀ b, IsDoneRunning_loop c rest b = Return (false, false) →
                       ∃ j', j' ∈ j :: rest ∧ keepsRunning c j').
  { intros b (j' & Hin & Hrun)%IH. exists j'. split; [by right | done]. }
  unfold keepsRunning. repeat case_decide; eauto.
  - intros _. exists j. split; [by left | by left].
  - destruct (isRunnable c (Job.Id j)) eqn:Hr; [|eauto].
    intros _. exists j. split; [by left | right; left; done].
  - destruct (canRetrySequence c (Job.Id j)) eqn:Hr; [|eauto].
    intros _. exists j. split; [by left | right; right; done].
  - done.
Qed.

(** X3. [RunnableJobs] returns, in whatever order, exactly the jobs of the
    chain whose id [IsRunnable] accepts, and each of them is PENDING. *)
Theorem RunnableJobs_elem
    {S : States} (c : Chain) (visit : list (string * Job.t)) (j : Job.t) :
  ranges (Jobs c) visit →
  (j ∈ RunnableJobs_in visit c ↔
   ∃ id, Jobs c !! id = Some j ∧ IsRunnable c id = true)
  ∧ (j ∈ RunnableJobs_in visit c → Job.State j = STATE_PENDING).
Proof.
  unfold ranges. intros Hvisit.
  assert (Hiff : j ∈ RunnableJobs_in visit c ↔
                 ∃ id, Jobs c !! id = Some j ∧ IsRunnable c id = true).
  { unfold RunnableJobs_in. rewrite elem_of_RunnableJobs_loop.
    split; intros (id & Hin & Hr); exists id; split; try done.
    - rewrite Hvisit in Hin. by apply elem_of_map_to_list.
    - rewrite Hvisit. by apply elem_of_map_to_list. }
  split; [exact Hiff|].
  intros (id & Hj & Hr)%Hiff. unfold IsRunnable, isRunnable in Hr.
  apply isRunnable_in_true in Hr as [Hp _]; [|by unfold ranges].
  unfold job in Hp. by rewrite Hj in Hp.
Qed.

Lemma RunnableJobs_elem_witness :
  let c := sample.diamond Byte.x03 Byte.x03 Byte.x06 Byte.x01 in
  sample.newJob "job4" Byte.x01 0 ∈ RunnableJobs (S := sample.states) c
  ∧ Job.State (sample.newJob "job4" Byte.x01 0) = Byte.x01.
Proof.
  intros c.
  destruct (RunnableJobs_elem (S := sample.states) c (map_to_list (Jobs c))
              (sample.newJob "job4" Byte.x01 0)) as [Hiff Hpending].
  { unfold ranges. reflexivity. }
  assert (Hin : sample.newJob "job4" Byte.x01 0 ∈ RunnableJobs (S := sample.states) c).
  { apply Hiff. exists "job4". split; reflexivity. }
  split; [exact Hin | exact (Hpending Hin)].
Defined.

(** X4. For a chain of job states whose jobs are stored under their own
    ids, [IsDoneRunning] returns (false, false) exactly when a job is
    running, or a failed job's sequence can be retried, or [RunnableJobs]
    is not empty: while the chain is not done and nothing runs or waits
    for a retry, there is a job to dispatch. *)
Theorem IsDoneRunning_not_done_iff
    {S : States} (c : Chain) (order visit : list (string * Job.t)) :
  distinct S →
  validStates c →
  keyedById c →
  ranges (Jobs c) order →
  ranges (Jobs c) visit →
  IsDoneRunning_in order c = Return (false, false) ↔
  (∃ id j, Jobs c !! id = Some j ∧ Job.State j = STATE_RUNNING)
  ∨ (∃ id j, Jobs c !! id = Some j ∧ failed j ∧ CanRetrySequence c id = true)
  ∨ RunnableJobs_in visit c ≠ [].
Proof.
  intros Hd Hvalid Hkeyed Horder Hvisit.
  assert (Hin : ∀ id j, Jobs c !! id = Some j → (id, j) ∈ visit).
  { intros id j Hj. unfold ranges in Hvisit. rewrite Hvisit.
    by apply elem_of_map_to_list. }
  split.
  - intros (j & [id Hj]%(ranges_values _ _ _ Horder) & Hrun)%IsDoneRunning_loop_false_false.
    pose proof (Hkeyed id j Hj) as Hid. simpl in Hid.
    unfold keepsRunning in Hrun. rewrite Hid in Hrun.
    destruct Hrun as [Hr|[[Hp Hr]|[Hf Hr]]].
    + left. eauto.
    + right. right. intros Hnil.
      assert (Hj' : j ∈ RunnableJobs_in visit c).
      { apply elem_of_RunnableJobs_loop. exists id. split; [by apply Hin | done]. }
      rewrite Hnil in Hj'. by apply elem_of_nil in Hj'.
    + right. left. exists id, j. split_and!; done.
  - intros Hwork.
    apply IsDoneRunning_loop_keepsRunning; [done | |].
    { intros j [id Hj]%(ranges_values _ _ _ Horder). by apply (Hvalid id). }
    destruct Hwork as [(id & j & Hj & Hr)|[(id & j & Hj & Hf & Hr)|Hnonempty]].
    + exists j. split; [apply (ranges_values _ _ _ Horder); eauto | by left].
    + exists j. split; [apply (ranges_values _ _ _ Horder); eauto|].
      right. right. split; [done|].
      pose proof (Hkeyed id j Hj) as Hid. simpl in Hid. by rewrite Hid.
    + destruct (RunnableJobs_in visit c) as [|j rest] eqn:Hrun; [done|].
      assert (Hj : j ∈ RunnableJobs_loop c visit)
        by (unfold RunnableJobs_in in Hrun; rewrite Hrun; by left).
      apply elem_of_RunnableJobs_loop in Hj as (id & Hj & Hr).
      unfold ranges in Hvisit. rewrite Hvisit in Hj.
      apply elem_of_map_to_list in Hj.
      pose proof (Hkeyed id j Hj) as Hid. simpl in Hid.
      exists j. split; [apply (ranges_values _ _ _ Horder); eauto|].
      right. left. rewrite Hid. split; [|done].
      unfold IsRunnable, isRunnable in Hr.
      apply isRunnable_in_true in Hr as [Hp _]; [|by unfold ranges].
      unfold job in Hp. by rewrite Hj in Hp.
Qed.

Lemma IsDoneRunning_not_done_iff_witness :
  let c := sample.diamond Byte.x03 Byte.x03 Byte.x06 Byte.x01 in
  IsDoneRunning (S := sample.states) c = Return (false, false) ↔
  (∃ id j, Jobs c !! id = Some j ∧ Job.State j = Byte.x02)
  ∨ (∃ id j, Jobs c !! id = Some j ∧ failed (S := sample.states) j
             ∧ CanRetrySequence c id = true)
  ∨ RunnableJobs (S := sample.states) c ≠ [].
Proof.
  intros c.
  apply (IsDoneRunning_not_done_iff (S := sample.states) c
           (map_to_list (Jobs c)) (map_to_list (Jobs c)));
    first [ by unfold ranges | apply (bool_decide_unpack _); vm_compute; exact I ].
Defined.

(** ** Graph queries *)

Lemma NextJobs_loop_omap (jobs : gmap string Job.t) (nextJobIds : list string) :
  NextJobs_loop jobs nextJobIds = omap (λ id, jobs !! id) nextJobIds.
Proof.
  induction nextJobIds as [|id rest IH]; csimpl; [done|].
  destruct (jobs !! id); by rewrite IH.
Qed.

Lemma elem_of_NextJobs (c : Chain) (id : string) (j : Job.t) :
  j ∈ NextJobs c id ↔
  ∃ next nid, AdjacencyList c !! id = Some next ∧ nid ∈ next
              ∧ Jobs c !! nid = Some j.
Proof.
  unfold NextJobs. destruct (AdjacencyList c !! id) as [next|].
  - rewrite NextJobs_loop_omap, list_elem_of_omap. split.
    + intros (nid & Hin & Hj). eauto.
    + intros (next' & nid & [= <-] & Hin & Hj). eauto.
  - split; [by intros ?%elem_of_nil | by intros (? & ? & ? & _)].
Qed.

(** X5. [NextJobs] returns the jobs stored under the ids the adjacency
    list gives for the job, in the order of that list, skipping ids that
    are not in [Jobs]; for a job without an entry in the adjacency list it
    returns nothing. *)
Theorem NextJobs_lists_adjacent_jobs (c : Chain) (id : string) :
  (∀ next, AdjacencyList c !! id = Some next →
           NextJobs c id = omap (λ nid, Jobs c !! nid) next)
  ∧ (AdjacencyList c !! id = None → NextJobs c id = [])
  ∧ (∀ j, j ∈ NextJobs c id → ∃ nid, Jobs c !! nid = Some j).
Proof.
  split_and!.
  - intros next Hnext. unfold NextJobs. rewrite Hnext. apply NextJobs_loop_omap.
  - intros Hnone. unfold NextJobs. by rewrite Hnone.
  - intros j (next & nid & _ & _ & Hj)%elem_of_NextJobs. eauto.
Qed.

Lemma NextJobs_lists_adjacent_jobs_witness :
  let c := sample.diamond Byte.x03 Byte.x03 Byte.x06 Byte.x01 in
  NextJobs c "job1"
  = [sample.newJob "job2" Byte.x03 0; sample.newJob "job3" Byte.x06 0]
  ∧ NextJobs c "job4" = [].
Proof.
  intros c. destruct (NextJobs_lists_adjacent_jobs c "job1") as (Hsome & _ & _).
  destruct (NextJobs_lists_adjacent_jobs c "job4") as (_ & Hnone & _).
  split; [by rewrite (Hsome ["job2"; "job3"]) | by apply Hnone].
Defined.

(** X6. In a chain whose jobs are stored under their own ids, the forward
    and the backward query agree: a job [q] is among the next jobs of [p]
    iff [p] is among the previous jobs of [q]. *)
Theorem NextJobs_previousJobs_dual
    (c : Chain) (adj : list (string * list string)) (p q : string) (pj qj : Job.t) :
  keyedById c →
  ranges (AdjacencyList c) adj →
  Jobs c !! p = Some pj →
  Jobs c !! q = Some qj →
  qj ∈ NextJobs c p ↔ pj ∈ previousJobs_in adj c q.
Proof.
  unfold ranges. intros Hkeyed Hadj Hp Hq.
  unfold previousJobs_in. rewrite elem_of_NextJobs, elem_of_previousJobs_loop.
  split.
  - intros (next & nid & Hnext & Hin & Hj).
    assert (nid = q) as ->.
    { pose proof (Hkeyed nid qj Hj). pose proof (Hkeyed q qj Hq). simpl in *.
      congruence. }
    exists p, next. split_and!; [|done..]. rewrite Hadj.
    by apply elem_of_map_to_list.
  - intros (p' & next & Hin & Hq' & Hj).
    assert (p' = p) as ->.
    { pose proof (Hkeyed p' pj Hj). pose proof (Hkeyed p pj Hp). simpl in *.
      congruence. }
    rewrite Hadj in Hin. apply elem_of_map_to_list in Hin. eauto.
Qed.

Lemma NextJobs_previousJobs_dual_witness :
  let c := sample.diamond Byte.x03 Byte.x03 Byte.x06 Byte.x01 in
  sample.newJob "job4" Byte.x01 0 ∈ NextJobs c "job2" ↔
  sample.newJob "job2" Byte.x03 0 ∈ previousJobs c "job4".
Proof.
  intros c.
  apply (NextJobs_previousJobs_dual c (map_to_list (AdjacencyList c)) "job2" "job4").
  - apply (bool_decide_unpack _). vm_compute. exact I.
  - unfold ranges. reflexivity.
  - reflexivity.
  - reflexivity.
Defined.

(** ** Failed jobs *)

Lemma FailedJobs_loop_count {S : States} (jobs : list Job.t) (n : N) :
  (Z.of_N n + Z.of_nat (length jobs) < 2 ^ intSize)%Z →
  FailedJobs_loop jobs n = (n + N.of_nat (length (filter failed jobs)))%N.
Proof.
  revert n. induction jobs as [|j rest IH]; intros n Hbound;
    cbn [FailedJobs_loop length] in *.
  - rewrite filter_nil. cbn [length]. lia.
  - destruct (decide (Job.State j = STATE_FAIL ∨ Job.State j = STATE_UNKNOWN))
      as [Hf|Hf].
    + rewrite filter_cons_True by done. cbn [length].
      rewrite uint_add_id by lia. rewrite IH by lia. lia.
    + rewrite filter_cons_False by done. apply IH. lia.
Qed.

(** X7. [FailedJobs] returns the number of jobs in state FAIL or UNKNOWN,
    in whatever order it visits them (the count of jobs being below
    2^64); it returns 0 iff no job has failed. *)
Theorem FailedJobs_counts_failed
    {S : States} (c : Chain) (order : list (string * Job.t)) :
  ranges (Jobs c) order →
  (Z.of_nat (size (Jobs c)) < 2 ^ intSize)%Z →
  FailedJobs_in order c
  = N.of_nat (length (filter failed (map_to_list (Jobs c)).*2))
  ∧ (FailedJobs_in order c = 0%N ↔ map_Forall (λ _ j, ¬ failed j) (Jobs c)).
Proof.
  unfold ranges. intros Horder Hsize.
  assert (Hcount : FailedJobs_in order c
                   = N.of_nat (length (filter failed (map_to_list (Jobs c)).*2))).
  { unfold FailedJobs_in. rewrite FailedJobs_loop_count.
    - by rewrite Horder.
    - rewrite length_fmap, Horder, length_map_to_list. simpl. lia. }
  split; [exact Hcount|]. rewrite Hcount. split.
  - intros Hzero id j Hj Hf.
    assert (Hin : j ∈ filter failed (map_to_list (Jobs c)).*2).
    { apply list_elem_of_filter. split; [done|].
      apply list_elem_of_fmap. exists (id, j). split; [done|].
      by apply elem_of_map_to_list. }
    destruct (filter failed (map_to_list (Jobs c)).*2); [|simpl in Hzero; lia].
    by apply elem_of_nil in Hin.
  - intros Hnone.
    destruct (filter failed (map_to_list (Jobs c)).*2) as [|j rest] eqn:Hfilter;
      [done|].
    assert (Hin : j ∈ filter failed (map_to_list (Jobs c)).*2)
      by (rewrite Hfilter; by left).
    apply list_elem_of_filter in Hin as [Hf Hin].
    apply list_elem_of_fmap in Hin as ([id j'] & -> & Hin).
    apply elem_of_map_to_list in Hin. by destruct (Hnone id j' Hin).
Qed.

Lemma FailedJobs_counts_failed_witness :
  FailedJobs (S := sample.states) (sample.diamond Byte.x03 Byte.x04 Byte.x00 Byte.x01)
  = 2%N.
Proof.
  destruct (FailedJobs_counts_failed (S := sample.states)
              (sample.diamond Byte.x03 Byte.x04 Byte.x00 Byte.x01)
              (map_to_list (Jobs (sample.diamond Byte.x03 Byte.x04 Byte.x00 Byte.x01))))
    as [Hcount _].
  - unfold ranges. reflexivity.
  - vm_compute. reflexivity.
  - unfold FailedJobs. rewrite Hcount. vm_compute. reflexivity.
Defined.

(** ** Try counters and the finished jobs count *)

Section counter_lemmas.
Local Open Scope Z_scope.

Lemma pow_intSize : 2 ^ (intSize - 1) = 9223372036854775808 ∧ 2 ^ intSize = 18446744073709551616.
Proof. split; reflexivity. Qed.

(** An [int] sum that leaves the range at the top comes out negative. *)
Lemma int_add_overflow (a b : Z) :
  0 <= a < 2 ^ (intSize - 1) → 0 <= b < 2 ^ (intSize - 1) →
  2 ^ (intSize - 1) <= a + b → int_add a b < 0.
Proof.
  destruct pow_intSize as [H63 H64]. rewrite H63. intros Ha Hb Hsum.
  unfold int_add, wrap_int. rewrite H63, H64.
  replace (a + b + 9223372036854775808)
    with (a + b - 9223372036854775808 + 1 * 18446744073709551616) by lia.
  rewrite Z_mod_plus_full, Z.mod_small by lia. lia.
Qed.

(** The new value of a counter, when neither the conversion to [int] nor
    the sum wraps. *)
Lemma counter_add (u : N) (delta : Z) :
  Z.of_N u < 2 ^ (intSize - 1) →
  0 <= Z.of_N u + delta < 2 ^ (intSize - 1) →
  int_add (int_of_uint u) delta = Z.of_N u + delta
  ∧ Z.of_N (uint_of_int (int_add (int_of_uint u) delta)) = Z.of_N u + delta.
Proof.
  destruct pow_intSize as [H63 H64]. intros Hu Hsum.
  rewrite int_of_uint_id by done.
  rewrite int_add_id by (unfold is_int; lia).
  split; [done|]. apply uint_of_int_id. lia.
Qed.

End counter_lemmas.

(** X8. When nothing wraps, [IncrementSequenceTries(id, delta)] adds
    [delta] to what [SequenceTries] returns for [id] and for every job of
    the same sequence, leaves the other sequences as they were, and
    touches neither the job chain nor the job try maps. *)
Theorem IncrementSequenceTries_adds_delta (c : Chain) (id : string) (delta : Z) :
  (Z.of_N (SequenceTries c id) < 2 ^ (intSize - 1))%Z →
  (0 ≤ Z.of_N (SequenceTries c id) + delta < 2 ^ (intSize - 1))%Z →
  ∃ c', IncrementSequenceTries c id delta = (c', Return tt)
        ∧ Z.of_N (SequenceTries c' id) = (Z.of_N (SequenceTries c id) + delta)%Z
        ∧ (∀ id', Job.SequenceId (job (Jobs c) id') = Job.SequenceId (job (Jobs c) id) →
                  SequenceTries c' id' = SequenceTries c' id)
        ∧ (∀ id', Job.SequenceId (job (Jobs c) id') ≠ Job.SequenceId (job (Jobs c) id) →
                  SequenceTries c' id' = SequenceTries c id')
        ∧ jobChain c' = jobChain c
        ∧ latestRunJobTries c' = latestRunJobTries c
        ∧ totalJobTries c' = totalJobTries c.
Proof.
  intros Hcur Hsum. eexists. split; [reflexivity|].
  unfold SequenceTries in *. simpl. unfold Jobs. simpl.
  split_and!; try reflexivity.
  - rewrite tries_insert, decide_True by done.
    by apply counter_add.
  - intros id' Heq. unfold Jobs in Heq. by rewrite Heq.
  - intros id' Hne. unfold Jobs in Hne. by rewrite tries_insert, decide_False.
Qed.

Lemma IncrementSequenceTries_adds_delta_witness :
  let c :=
    mkChain (jobChain (sample.diamond Byte.x03 Byte.x04 Byte.x03 Byte.x01))
      {[ "job1" := 1%N ]} ∅ ∅ in
  ∃ c', IncrementSequenceTries c "job2" 2 = (c', Return tt)
        ∧ SequenceTries c' "job4" = 3%N.
Proof.
  intros c.
  destruct (IncrementSequenceTries_adds_delta c "job2" 2)
    as (c' & Hrun & Hadd & Hsame & _); [vm_compute; done..|].
  exists c'. split; [exact Hrun|].
  rewrite (Hsame "job4") by reflexivity. apply N2Z.inj. rewrite Hadd. reflexivity.
Defined.

(** X9. Counting more sequence tries never makes a sequence retryable:
    after [IncrementSequenceTries] with a delta of at least 0 that does not
    wrap, [CanRetrySequence] is true only where it was true before; and
    when the sequence-start job is stored under its own id,
    [CanRetrySequence(id)] is then true iff the new count is at most
    [SequenceRetry]. *)
Theorem CanRetrySequence_after_IncrementSequenceTries
    (c : Chain) (id : string) (delta : Z) :
  (0 ≤ delta)%Z →
  (Z.of_N (SequenceTries c id) + delta < 2 ^ (intSize - 1))%Z →
  (∀ id', CanRetrySequence (fst (IncrementSequenceTries c id delta)) id' = true →
          CanRetrySequence c id' = true)
  ∧ (Job.Id (SequenceStartJob c id) = Job.SequenceId (job (Jobs c) id) →
     CanRetrySequence (fst (IncrementSequenceTries c id delta)) id = true ↔
     (Z.of_N (SequenceTries c id) + delta
      ≤ Z.of_N (Job.SequenceRetry (SequenceStartJob c id)))%Z).
Proof.
  intros Hdelta Hsum.
  assert (Hcur : (Z.of_N (SequenceTries c id) < 2 ^ (intSize - 1))%Z) by lia.
  destruct (counter_add (SequenceTries c id) delta Hcur) as [_ Hnew]; [lia|].
  unfold SequenceTries in *. split.
  - intros id'. unfold CanRetrySequence, SequenceStartJob. simpl. unfold Jobs. simpl.
    rewrite !bool_decide_eq_true, tries_insert. case_decide as Heq; [|done].
    unfold Jobs in *. rewrite <- Heq. lia.
  - intros Hkey. unfold CanRetrySequence, SequenceStartJob in *. simpl.
    unfold Jobs in *. simpl. rewrite bool_decide_eq_true, Hkey, tries_insert.
    rewrite decide_True by done. lia.
Qed.

Lemma CanRetrySequence_after_IncrementSequenceTries_witness :
  let c :=
    mkChain
      (JobChain.mk "req"
         {[ "job1" := sample.newJob "job1" Byte.x03 2;
            "job2" := sample.newJob "job2" Byte.x04 0 ]}
         {[ "job1" := ["job2"] ]} Byte.x02 0)
      ∅ ∅ ∅ in
  CanRetrySequence c "job2" = true
  ∧ CanRetrySequence (fst (IncrementSequenceTries c "job2" 3)) "job2" = false.
Proof.
  intros c.
  destruct (CanRetrySequence_after_IncrementSequenceTries c "job2" 3)
    as [Hmono Hiff]; [vm_compute; done..|].
  split.
  - reflexivity.
  - apply not_true_is_false. intros Hcan.
    apply Hiff in Hcan; [|reflexivity]. vm_compute in Hcan. by apply Hcan.
Defined.

(** X10. With a count and a sum within [int], [IncrementFinishedJobs]
    panics, leaving the chain as it was, when the sum is below zero, and
    otherwise returns with [FinishedJobs] moved by exactly [delta] and
    everything else unchanged. *)
Theorem IncrementFinishedJobs_effect (c : Chain) (delta : Z) :
  is_int delta →
  (Z.of_N (FinishedJobs c) < 2 ^ (intSize - 1))%Z →
  (Z.of_N (FinishedJobs c) + delta < 2 ^ (intSize - 1))%Z →
  ((Z.of_N (FinishedJobs c) + delta < 0)%Z →
   IncrementFinishedJobs c delta = (c, Panic))
  ∧ ((0 ≤ Z.of_N (FinishedJobs c) + delta)%Z →
     ∃ c', IncrementFinishedJobs c delta = (c', Return tt)
           ∧ Z.of_N (FinishedJobs c') = (Z.of_N (FinishedJobs c) + delta)%Z
           ∧ Jobs c' = Jobs c
           ∧ AdjacencyList c' = AdjacencyList c
           ∧ RequestId c' = RequestId c
           ∧ State c' = State c
           ∧ sequenceTries c' = sequenceTries c
           ∧ latestRunJobTries c' = latestRunJobTries c
           ∧ totalJobTries c' = totalJobTries c).
Proof.
  intros Hint Hcur Hsum. unfold FinishedJobs in *. split.
  - intros Hneg. unfold IncrementFinishedJobs.
    by rewrite decide_True by by apply int_add_negative.
  - intros Hpos. unfold IncrementFinishedJobs.
    destruct (counter_add (JobChain.FinishedJobs (jobChain c)) delta Hcur)
      as [Hadd Hnew]; [lia|].
    rewrite decide_False by lia.
    eexists. split; [reflexivity|]. simpl. by split_and!.
Qed.

Lemma IncrementFinishedJobs_effect_witness :
  let c := withJobChain (sample.pair Byte.x03 Byte.x01)
             (JobChain.mk "req" (Jobs (sample.pair Byte.x03 Byte.x01)) ∅ Byte.x02 1) in
  IncrementFinishedJobs c (- 2) = (c, Panic)
  ∧ ∃ c', IncrementFinishedJobs c (- 1) = (c', Return tt)
          ∧ Z.of_N (FinishedJobs c') = 0%Z.
Proof.
  intros c. split.
  - apply (IncrementFinishedJobs_effect c (- 2)); vm_compute; done.
  - destruct (IncrementFinishedJobs_effect c (- 1)) as [_ Hreturn];
      [vm_compute; done..|].
    destruct Hreturn as (c' & Hrun & Hcount & _); [vm_compute; done|].
    exists c'. split; [exact Hrun | exact Hcount].
Defined.

(** X11. A sequence rollback undoes the count: after
    [IncrementFinishedJobs(d)] with d at least 0 and a sum within [int],
    [IncrementFinishedJobs(-d)] returns and gives back the chain as it
    was. *)
Theorem IncrementFinishedJobs_undo (c : Chain) (d : Z) :
  (0 ≤ d)%Z →
  (Z.of_N (FinishedJobs c) + d < 2 ^ (intSize - 1))%Z →
  ∃ c', IncrementFinishedJobs c d = (c', Return tt)
        ∧ IncrementFinishedJobs c' (- d) = (c, Return tt).
Proof.
  intros Hd Hsum. unfold FinishedJobs in *.
  destruct pow_intSize as [H63 H64].
  destruct (counter_add (JobChain.FinishedJobs (jobChain c)) d) as [Hadd Hnew];
    [lia..|].
  unfold IncrementFinishedJobs at 1. rewrite decide_False by lia.
  eexists. split; [reflexivity|].
  unfold IncrementFinishedJobs. simpl.
  destruct (counter_add (uint_of_int (int_add (int_of_uint
              (JobChain.FinishedJobs (jobChain c))) d)) (- d)) as [Hadd' Hnew'];
    [lia..|].
  rewrite decide_False by lia. f_equal.
  destruct c as [[rid jobs adj st fin] seq latest total]. simpl in *.
  unfold withJobChain. simpl. do 2 f_equal. apply N2Z.inj. lia.
Qed.

Lemma IncrementFinishedJobs_undo_witness :
  let c := sample.pair Byte.x03 Byte.x01 in
  ∃ c', IncrementFinishedJobs c 2 = (c', Return tt)
        ∧ IncrementFinishedJobs c' (- 2) = (c, Return tt).
Proof.
  intros c. apply (IncrementFinishedJobs_undo c 2); vm_compute; done.
Defined.

(** X12. [IncrementJobTries] keeps the try counts ordered: if every job
    has at most as many tries in the current sequence try as in total, and
    the total of the job is below 2^63, then after a call that returns
    this is still so for every job. *)
Theorem IncrementJobTries_keeps_latest_le_total
    (c c' : Chain) (id : string) (delta : Z) :
  is_int delta →
  (∀ id', (tries (latestRunJobTries c) id' ≤ tries (totalJobTries c) id')%N) →
  (Z.of_N (tries (totalJobTries c) id) < 2 ^ (intSize - 1))%Z →
  IncrementJobTries c id delta = (c', Return tt) →
  ∀ id', (tries (latestRunJobTries c') id' ≤ tries (totalJobTries c') id')%N.
Proof.
  unfold is_int. destruct pow_intSize as [H63 H64]. rewrite H63 in *.
  intros Hint Hle Htotal Hrun id'.
  pose proof (Hle id) as Hid. pose proof (Hle id') as Hid'.
  assert (Hcur : int_of_uint (tries (latestRunJobTries c) id)
                 = Z.of_N (tries (latestRunJobTries c) id))
    by (apply int_of_uint_id; lia).
  unfold IncrementJobTries in Hrun.
  destruct (decide (0 < delta)%Z) as [Hpos|Hneg]; simpl in Hrun.
  - rewrite Hcur in Hrun. case_decide as Hpanic; [done|].
    destruct (decide (2 ^ (intSize - 1)
                      ≤ Z.of_N (tries (latestRunJobTries c) id) + delta)%Z) as [Hover|Hfit].
    { destruct Hpanic. apply int_add_overflow; lia. }
    rewrite int_add_id in Hrun by (unfold is_int; lia).
    injection Hrun as <-. simpl. rewrite !tries_insert.
    case_decide; [|done]. apply N2Z.inj_le.
    rewrite uint_of_int_id by lia.
    assert (Hd : Z.of_N (uint_of_int delta) = delta) by (apply uint_of_int_id; lia).
    rewrite uint_add_id by lia. lia.
  - rewrite Hcur in Hrun. case_decide as Hpanic; [done|].
    rewrite int_add_id in Hrun, Hpanic by (unfold is_int; lia).
    injection Hrun as <-. simpl. rewrite !tries_insert.
    case_decide as Heq; [subst id'|done]. apply N2Z.inj_le.
    rewrite uint_of_int_id by lia. lia.
Qed.

Lemma IncrementJobTries_keeps_latest_le_total_witness :
  let c := mkChain (JobChain.mk "req" ∅ ∅ Byte.x02 0)
             ∅ {[ "job1" := 2%N ]} {[ "job1" := 3%N ]} in
  (tries (latestRunJobTries (fst (IncrementJobTries c "job1" 1))) "job1"
   ≤ tries (totalJobTries (fst (IncrementJobTries c "job1" 1))) "job1")%N.
Proof.
  intros c.
  apply (IncrementJobTries_keeps_latest_le_total c _ "job1" 1).
  - vm_compute. done.
  - intros id'. unfold c. simpl. unfold tries.
    rewrite !lookup_singleton. case_decide; simpl; lia.
  - vm_compute. reflexivity.
  - reflexivity.
Defined.

(** X13. [IncrementJobTries] writes the two counters of its job only: the
    job chain, the sequence tries and the counters of every other job are
    as before, whether the call returns or panics; and, short of the
    largest [uint], the total of the job never goes down. *)
Theorem IncrementJobTries_frame (c : Chain) (id : string) (delta : Z) :
  jobChain (fst (IncrementJobTries c id delta)) = jobChain c
  ∧ sequenceTries (fst (IncrementJobTries c id delta)) = sequenceTries c
  ∧ (∀ id', id' ≠ id →
            JobTries (fst (IncrementJobTries c id delta)) id' = JobTries c id')
  ∧ ((Z.of_N (tries (totalJobTries c) id) + delta < 2 ^ intSize)%Z →
     (tries (totalJobTries c) id
      ≤ tries (totalJobTries (fst (IncrementJobTries c id delta))) id)%N).
Proof.
  destruct pow_intSize as [H63 H64]. unfold IncrementJobTries, JobTries.
  destruct (decide (0 < delta)%Z) as [Hpos|Hneg]; case_decide; simpl;
    split_and!; try done;
    try (intros id' Hne; by rewrite ?tries_insert, ?decide_False by done).
  all: intros Hfit; rewrite tries_insert, decide_True by done;
    assert (Hd : Z.of_N (uint_of_int delta) = delta) by (apply uint_of_int_id; lia);
    rewrite uint_add_id by lia; lia.
Qed.

Lemma IncrementJobTries_frame_witness :
  let c := mkChain (JobChain.mk "req" ∅ ∅ Byte.x02 0)
             ∅ {[ "job1" := 2%N; "job2" := 1%N ]} {[ "job1" := 3%N; "job2" := 1%N ]} in
  JobTries (fst (IncrementJobTries c "job1" (- 5))) "job2" = (1%N, 1%N)
  ∧ (3 ≤ tries (totalJobTries (fst (IncrementJobTries c "job1" 4))) "job1")%N.
Proof.
  intros c. split.
  - destruct (IncrementJobTries_frame c "job1" (- 5)) as (_ & _ & Hother & _).
    by rewrite Hother.
  - destruct (IncrementJobTries_frame c "job1" 4) as (_ & _ & _ & Htotal).
    apply Htotal. vm_compute. reflexivity.
Defined.

(** ** Job states *)

Lemma job_insert (jobs : gmap string Job.t) (id id' : string) (j : Job.t) :
  job (<[id := j]> jobs) id' = if decide (id = id') then j else job jobs id'.
Proof. unfold job. rewrite lookup_insert. by case_decide. Qed.

(** X14. [JobState] reads what [SetJobState] wrote, for any id, in [Jobs]
    or not, and the states of the other jobs are as before; of two writes
    to one job the last one stands, and writes to different jobs can be
    made in either order. *)
Theorem SetJobState_JobState (c : Chain) (id : string) (s : Byte.byte) :
  JobState (SetJobState c id s) id = s
  ∧ (∀ id', id' ≠ id → JobState (SetJobState c id s) id' = JobState c id')
  ∧ (∀ s', SetJobState (SetJobState c id s) id s' = SetJobState c id s')
  ∧ (∀ id' s', id' ≠ id →
               SetJobState (SetJobState c id s) id' s'
               = SetJobState (SetJobState c id' s') id s).
Proof.
  unfold JobState, SetJobState, Jobs. simpl. split_and!.
  - by rewrite job_insert, decide_True.
  - intros id' Hne. by rewrite job_insert, decide_False.
  - intros s'. rewrite job_insert, decide_True by done.
    unfold withJobs, withJobChain. simpl. by rewrite insert_insert_eq.
  - intros id' s' Hne. rewrite !job_insert, !decide_False by done.
    unfold withJobs, withJobChain. simpl. do 2 f_equal.
    by apply insert_insert_ne.
Qed.

Lemma SetJobState_JobState_witness :
  let c := sample.diamond Byte.x03 Byte.x02 Byte.x01 Byte.x01 in
  JobState (SetJobState c "job2" Byte.x03) "job3" = Byte.x01
  ∧ SetJobState (SetJobState c "job2" Byte.x03) "job3" Byte.x02
    = SetJobState (SetJobState c "job3" Byte.x02) "job2" Byte.x03.
Proof.
  intros c.
  destruct (SetJobState_JobState c "job2" Byte.x03) as (_ & Hother & _ & Hswap).
  split; [by apply Hother | by apply Hswap].
Defined.

(** X15. [SetJobState] on an id that is not in [Jobs] adds a job under
    that id: the zero job in the given state, with an empty [Id] and no
    data; unless the id is the empty string the chain then holds a job
    that is not stored under its own id. *)
Theorem SetJobState_missing_id (c : Chain) (id : string) (s : Byte.byte) :
  Jobs c !! id = None →
  Jobs (SetJobState c id s) !! id = Some (Job.mk "" s "" 0 0 None)
  ∧ dom (Jobs (SetJobState c id s)) = {[id]} ∪ dom (Jobs c)
  ∧ (id ≠ EmptyString → ¬ keyedById (SetJobState c id s)).
Proof.
  intros Hnone.
  assert (Hnew : Jobs (SetJobState c id s) !! id = Some (Job.mk "" s "" 0 0 None)).
  { unfold SetJobState, job. rewrite Hnone. unfold Jobs. simpl.
    by rewrite lookup_insert_eq. }
  split_and!.
  - exact Hnew.
  - unfold SetJobState, Jobs. simpl. apply dom_insert_L.
  - intros Hne Hkeyed. apply Hne. symmetry. exact (Hkeyed id _ Hnew).
Qed.

Lemma SetJobState_missing_id_witness :
  let c := sample.pair Byte.x03 Byte.x01 in
  Jobs (SetJobState c "job9" Byte.x02) !! "job9"
  = Some (Job.mk "" Byte.x02 "" 0 0 None)
  ∧ ¬ keyedById (SetJobState c "job9" Byte.x02).
Proof.
  intros c.
  destruct (SetJobState_missing_id c "job9" Byte.x02) as (Hnew & _ & Hkeyed);
    [reflexivity|].
  split; [exact Hnew | by apply Hkeyed].
Defined.

Lemma validStates_SetJobState {S : States} (c : Chain) (id : string) (s : Byte.byte) :
  validStates c → isJobState s → validStates (SetJobState c id s).
Proof.
  intros Hvalid Hs id' j. unfold SetJobState, Jobs. simpl.
  rewrite lookup_insert. case_decide.
  - by intros [= <-].
  - apply Hvalid.
Qed.

(** X16. On a chain of job states, a job set to RUNNING makes
    [IsDoneRunning] return (false, false); and setting a job to COMPLETE
    when all the others are COMPLETE makes it return (true, true). *)
Theorem IsDoneRunning_after_SetJobState
    {S : States} (c : Chain) (id : string) :
  distinct S →
  validStates c →
  (∀ order, ranges (Jobs (SetJobState c id STATE_RUNNING)) order →
            IsDoneRunning_in order (SetJobState c id STATE_RUNNING)
            = Return (false, false))
  ∧ ((∀ id' j, id' ≠ id → Jobs c !! id' = Some j → Job.State j = STATE_COMPLETE) →
     ∀ order, ranges (Jobs (SetJobState c id STATE_COMPLETE)) order →
              IsDoneRunning_in order (SetJobState c id STATE_COMPLETE)
              = Return (true, true)).
Proof.
  intros Hd Hvalid. split.
  - intros order Horder.
    apply IsDoneRunning_loop_keepsRunning; [done | |].
    + intros j [id' Hj]%(ranges_values _ _ _ Horder).
      apply (validStates_SetJobState c id STATE_RUNNING Hvalid) in Hj; [done|].
      apply isJobState_cases. tauto.
    + exists (Job.withState (job (Jobs c) id) STATE_RUNNING). split.
      * apply (ranges_values _ _ _ Horder). exists id.
        unfold SetJobState, Jobs. simpl. by rewrite lookup_insert_eq.
      * by left.
  - intros Hothers order Horder. apply IsDoneRunning_loop_true_true.
    split; [done|]. intros j [id' Hj]%(ranges_values _ _ _ Horder).
    unfold SetJobState, Jobs in Hj. simpl in Hj.
    rewrite lookup_insert in Hj. case_decide.
    + by injection Hj as <-.
    + by apply (Hothers id').
Qed.

Lemma IsDoneRunning_after_SetJobState_witness :
  let c := sample.diamond Byte.x03 Byte.x03 Byte.x03 Byte.x01 in
  IsDoneRunning (S := sample.states) (SetJobState c "job4" Byte.x02)
  = Return (false, false)
  ∧ IsDoneRunning (S := sample.states) (SetJobState c "job4" Byte.x03)
    = Return (true, true).
Proof.
  intros c.
  destruct (IsDoneRunning_after_SetJobState (S := sample.states) c "job4")
    as [Hrunning Hcomplete];
    [apply (bool_decide_unpack _); vm_compute; exact I..|].
  split.
  - apply Hrunning. by unfold ranges.
  - apply Hcomplete; [|by unfold ranges].
    intros id' j Hne Hj. unfold c, sample.diamond, Jobs in Hj. simpl in Hj.
    lookup_cases Hj; done.
Defined.

(** ** Unknown ids and sequences *)

(** X17. For an id that is not in [Jobs] the queries work on the zero job:
    [JobState] returns the zero byte, [IsRunnable] returns false unless
    PENDING is the zero byte, [IsSequenceStartJob] returns true for the
    empty id only, and the sequence queries fall on the empty sequence id:
    [SequenceStartJob] returns the job stored under the empty id,
    [SequenceTries] reads the counter of the empty id and
    [IncrementSequenceTries] writes it. *)
Theorem queries_on_unknown_id {S : States} (c : Chain) (id : string) :
  Jobs c !! id = None →
  JobState c id = Byte.x00
  ∧ (STATE_PENDING ≠ Byte.x00 → IsRunnable c id = false)
  ∧ IsSequenceStartJob c id = bool_decide (id = EmptyString)
  ∧ SequenceStartJob c id = job (Jobs c) EmptyString
  ∧ SequenceTries c id = tries (sequenceTries c) EmptyString
  ∧ (∀ delta, dom (sequenceTries (fst (IncrementSequenceTries c id delta)))
              = {[EmptyString]} ∪ dom (sequenceTries c)).
Proof.
  intros Hnone.
  assert (Hjob : job (Jobs c) id = Job.zero) by (unfold job; by rewrite Hnone).
  split_and!.
  - unfold JobState. by rewrite Hjob.
  - intros Hpending. unfold IsRunnable, isRunnable, isRunnable_in.
    rewrite Hjob. simpl. by rewrite decide_True by done.
  - unfold IsSequenceStartJob. by rewrite Hjob.
  - unfold SequenceStartJob. by rewrite Hjob.
  - unfold SequenceTries. by rewrite Hjob.
  - intros delta. unfold IncrementSequenceTries. simpl. rewrite Hjob. simpl.
    apply dom_insert_L.
Qed.

Lemma queries_on_unknown_id_witness :
  let c := sample.pair Byte.x03 Byte.x01 in
  JobState c "job9" = Byte.x00
  ∧ IsRunnable (S := sample.states) c "job9" = false
  ∧ dom (sequenceTries (fst (IncrementSequenceTries c "job9" 1)))
    = {[EmptyString]} ∪ dom (sequenceTries c).
Proof.
  intros c.
  destruct (queries_on_unknown_id (S := sample.states) c "job9")
    as (Hstate & Hrunnable & _ & _ & _ & Hwrite); [reflexivity|].
  split_and!; [exact Hstate | by apply Hrunnable | apply Hwrite].
Defined.

(** X18. A job that [IsSequenceStartJob] accepts is its own sequence-start
    job; and [CanRetrySequence] and [SequenceTries] answer for the
    sequence, not for the job: two ids whose jobs have the same
    [SequenceId] get the same answers. *)
Theorem sequence_queries (c : Chain) (id : string) (j : Job.t) :
  Jobs c !! id = Some j →
  (IsSequenceStartJob c id = true → SequenceStartJob c id = j)
  ∧ (∀ id', Job.SequenceId (job (Jobs c) id') = Job.SequenceId j →
            SequenceStartJob c id' = SequenceStartJob c id
            ∧ CanRetrySequence c id' = CanRetrySequence c id
            ∧ SequenceTries c id' = SequenceTries c id).
Proof.
  intros Hj.
  assert (Hjob : job (Jobs c) id = j) by (unfold job; by rewrite Hj).
  split.
  - unfold IsSequenceStartJob, SequenceStartJob. rewrite Hjob.
    intros Heq%bool_decide_eq_true. by rewrite <- Heq, Hjob.
  - intros id' Hseq.
    unfold CanRetrySequence, SequenceStartJob, SequenceTries.
    by rewrite Hjob, Hseq.
Qed.

Lemma sequence_queries_witness :
  let c :=
    mkChain
      (JobChain.mk "req"
         {[ "job1" := sample.newJob "job1" Byte.x03 2;
            "job2" := sample.newJob "job2" Byte.x04 0 ]}
         {[ "job1" := ["job2"] ]} Byte.x02 0)
      {[ "job1" := 1%N ]} ∅ ∅ in
  SequenceStartJob c "job1" = sample.newJob "job1" Byte.x03 2
  ∧ CanRetrySequence c "job2" = CanRetrySequence c "job1".
Proof.
  intros c.
  destruct (sequence_queries c "job1" (sample.newJob "job1" Byte.x03 2))
    as [Hstart Hsame]; [reflexivity|].
  split; [by apply Hstart | by apply (Hsame "job2")].
Defined.

(** ** Construction *)

(** X19. After [NewChain] every job of the job chain has a data map; the
    jobs are the same ones, with every other field as it was, and a job
    that had data is untouched; the rest of the job chain, the other job
    chains of the store and all try maps are as before, and the new chain
    refers to the job chain and the maps it was given. *)
Theorem NewChain_gives_every_job_data
    (σ σ' : shared.Store) (jc sequenceTries totalJobTries latestRunJobTries : shared.loc)
    (order : list (string * Job.t)) (c' : shared.Chain) (v : JobChain.t) :
  shared.jobChains σ !! jc = Some v →
  ranges (JobChain.Jobs v) order →
  shared.NewChain_in order σ jc sequenceTries totalJobTries latestRunJobTries
  = Return (σ', c') →
  ∃ v', shared.jobChains σ' !! jc = Some v'
        ∧ allData (JobChain.Jobs v')
        ∧ dom (JobChain.Jobs v') = dom (JobChain.Jobs v)
        ∧ (∀ id j, JobChain.Jobs v !! id = Some j →
                   ∃ j', JobChain.Jobs v' !! id = Some j'
                         ∧ Job.Id j' = Job.Id j
                         ∧ Job.State j' = Job.State j
                         ∧ Job.SequenceId j' = Job.SequenceId j
                         ∧ Job.SequenceRetry j' = Job.SequenceRetry j
                         ∧ Job.Retry j' = Job.Retry j
                         ∧ (Job.Data j ≠ None → j' = j))
        ∧ JobChain.RequestId v' = JobChain.RequestId v
        ∧ JobChain.AdjacencyList v' = JobChain.AdjacencyList v
        ∧ JobChain.State v' = JobChain.State v
        ∧ JobChain.FinishedJobs v' = JobChain.FinishedJobs v
        ∧ (∀ l, l ≠ jc → shared.jobChains σ' !! l = shared.jobChains σ !! l)
        ∧ shared.triesMaps σ' = shared.triesMaps σ
        ∧ shared.jobChain c' = jc
        ∧ shared.sequenceTries c' = sequenceTries
        ∧ shared.totalJobTries c' = totalJobTries
        ∧ shared.latestRunJobTries c' = latestRunJobTries.
Proof.
  intros Hv Horder. unfold shared.NewChain_in. rewrite Hv.
  rewrite (NewChain_loop_fmap _ _ Horder). intros [= <- <-]. simpl.
  eexists. split; [apply lookup_insert_eq|]. simpl. split_and!; try reflexivity.
  - intros id j. rewrite lookup_fmap.
    destruct (JobChain.Jobs v !! id) as [j0|]; [|done]. intros [= <-].
    unfold NewChain_job. by case_decide.
  - apply dom_fmap_L.
  - intros id j Hj. exists (NewChain_job j). rewrite lookup_fmap, Hj.
    split; [done|]. destruct (NewChain_job_fields j) as (? & ? & ? & ? & ?).
    split_and!; try done. intros Hdata. unfold NewChain_job.
    by rewrite decide_False.
  - intros l Hne. by rewrite lookup_insert_ne.
Qed.

Lemma NewChain_gives_every_job_data_witness :
  ∃ σ' c' v',
    shared.NewChain_in
      (map_to_list (JobChain.Jobs (jobChain (sample.diamond Byte.x03 Byte.x06 Byte.x03 Byte.x01))))
      sample.store 1%positive 2%positive 4%positive 3%positive
    = Return (σ', c')
    ∧ shared.jobChains σ' !! 1%positive = Some v'
    ∧ allData (JobChain.Jobs v').
Proof.
  destruct (shared.NewChain_in
              (map_to_list (JobChain.Jobs (jobChain (sample.diamond Byte.x03 Byte.x06 Byte.x03 Byte.x01))))
              sample.store 1%positive 2%positive 4%positive 3%positive)
    as [[σ' c']|] eqn:Hnew; [|discriminate Hnew].
  destruct (NewChain_gives_every_job_data sample.store σ' 1%positive 2%positive
              4%positive 3%positive _ c'
              (jobChain (sample.diamond Byte.x03 Byte.x06 Byte.x03 Byte.x01))
              eq_refl (reflexivity _) Hnew)
    as (v' & Hv' & Hdata & _).
  exists σ', c', v'. split; [reflexivity|]. split; [exact Hv' | exact Hdata].
Defined.

(** * Further properties of the [find] arguments *)

Section find_parse_lemmas.
Import cmd.

Lemma filterName_cut (arg filter value : string) :
  cut "="%char arg = Some (filter, value) → filterName arg = Some filter.
Proof. unfold filterName. by intros ->. Qed.

Lemma filterName_Some (arg filter : string) :
  filterName arg = Some filter ↔ ∃ value, cut "="%char arg = Some (filter, value).
Proof.
  unfold filterName. destruct (cut "="%char arg) as [[f v]|]; simpl.
  - split; [intros [= <-]; eauto | by intros (v' & [= <- _])].
  - split; [done | by intros [? ?]].
Qed.

(** The parse loop succeeds exactly on arguments that all pass, name no
    filter twice and name none of the filters already held. *)
Lemma Prepare_parse_inr (args : list string) :
  ∀ filters,
    (∃ m, Prepare_parse args filters = inr m) ↔
    Forall passes args
    ∧ NoDup (namedFilters args)
    ∧ (∀ filter, filter ∈ namedFilters args → filters !! filter = None).
Proof.
  unfold namedFilters.
  induction args as [|arg rest IH]; intros filters; csimpl.
  - split; [intros _ | by eauto]. split_and!; [done | constructor|].
    by intros ? ?%elem_of_nil.
  - unfold SplitN_2. destruct (cut "="%char arg) as [[filter value]|] eqn:Hcut; simpl.
    + rewrite (filterName_cut _ _ _ Hcut). simpl.
      destruct (default false (validFilters !! filter)) eqn:Hvalid; simpl.
      * apply validFilters_true in Hvalid.
        destruct (decide (is_Some (filters !! filter))) as [Hseen|Hnew].
        -- split; [by intros [? ?]|]. intros (_ & _ & Hfree).
           rewrite (Hfree filter) in Hseen by by left. by destruct Hseen.
        -- rewrite IH, Forall_cons, NoDup_cons. split.
           ++ intros (Hall & Hnodup & Hfree). split_and!; try done.
              ** exists filter. split; [by apply (filterName_cut _ _ value)|done].
              ** intros Hin. specialize (Hfree _ Hin).
                 by rewrite lookup_insert_eq in Hfree.
              ** intros f [->|Hin]%elem_of_cons.
                 --- by apply eq_None_not_Some.
                 --- specialize (Hfree _ Hin).
                     rewrite lookup_insert in Hfree. by case_decide.
           ++ intros ([_ Hall] & [Hnotin Hnodup] & Hfree). split_and!; try done.
              intros f Hin. rewrite lookup_insert_ne.
              ** apply Hfree. by right.
              ** intros ->. done.
      * split; [by intros [? ?]|]. intros (Hall & _).
        apply Forall_cons_1 in Hall as [(f & Hf & Hin) _].
        rewrite (filterName_cut _ _ _ Hcut) in Hf. injection Hf as <-.
        apply validFilters_true in Hin. congruence.
    + split; [by intros [? ?]|]. intros (Hall & _).
      apply Forall_cons_1 in Hall as [(f & Hf & _) _].
      unfold filterName in Hf. by rewrite Hcut in Hf.
Qed.

(** What the map holds when the parse loop succeeds: the value of each
    argument under the filter it names, and what was held before. *)
Lemma Prepare_parse_lookup (args : list string) :
  ∀ filters m filter value,
    Prepare_parse args filters = inr m →
    m !! filter = Some value ↔
    (∃ arg, arg ∈ args ∧ cut "="%char arg = Some (filter, value))
    ∨ filters !! filter = Some value.
Proof.
  induction args as [|arg rest IH]; intros filters m f v; simpl.
  - intros [= <-]. split; [auto|]. by intros [(? & ?%elem_of_nil & _)|?].
  - unfold SplitN_2.
    destruct (cut "="%char arg) as [[filter value]|] eqn:Hcut; simpl; [|done].
    destruct (default false (validFilters !! filter)); simpl; [|done].
    case_decide as Hseen; [done|]. intros Hparse.
    rewrite (IH _ _ f v Hparse). apply eq_None_not_Some in Hseen. split.
    + intros [(arg' & Hin & Hcut')|Hheld].
      * left. exists arg'. split; [by right | done].
      * rewrite lookup_insert in Hheld. case_decide; simplify_eq.
        -- left. exists arg. split; [by left | done].
        -- by right.
    + intros [(arg' & [->|Hin]%elem_of_cons & Hcut')|Hheld].
      * simplify_eq. right. by rewrite lookup_insert_eq.
      * left. eauto.
      * right. rewrite lookup_insert_ne; [done|]. intros ->. congruence.
Qed.

Lemma accepted_parse (args : list string) :
  accepted args ↔ ∃ m, Prepare_parse args ∅ = inr m.
Proof.
  rewrite Prepare_parse_inr. unfold accepted. split.
  - intros [Hall Hnodup]. split_and!; [done..|]. intros f _. apply lookup_empty.
  - intros (Hall & Hnodup & _). done.
Qed.

Lemma accepted_Permutation (args args' : list string) :
  args ≡ₚ args' → accepted args → accepted args'.
Proof.
  unfold accepted, namedFilters. intros Hperm [Hall Hnodup]. split.
  - by rewrite <- Hperm.
  - by rewrite <- Hperm.
Qed.

Lemma Prepare_parse_Permutation (args args' : list string) m :
  args ≡ₚ args' → Prepare_parse args ∅ = inr m → Prepare_parse args' ∅ = inr m.
Proof.
  intros Hperm Hparse.
  assert (Haccepted : accepted args') .
  { apply (accepted_Permutation args); [done|]. apply accepted_parse. eauto. }
  apply accepted_parse in Haccepted as [m' Hparse']. rewrite Hparse'. f_equal.
  apply map_eq. intros f. apply option_eq. intros v.
  rewrite (Prepare_parse_lookup _ _ _ f v Hparse').
  rewrite (Prepare_parse_lookup _ _ _ f v Hparse).
  rewrite !lookup_empty. split; intros [(arg & Hin & Hcut)|?]; try done; left;
    exists arg; split; try done.
  - by rewrite Hperm.
  - by rewrite <- Hperm.
Qed.

End find_parse_lemmas.

Section find_values.
Import cmd.
Variable Time : Type.
Variable zeroTime : Time.
Variable time_Parse : string → string → option Time.
Variable ParseUint : string → option N.
Variable StateValue : gmap string Byte.byte.

Local Abbreviation Prepare :=
  (Prepare Time zeroTime time_Parse ParseUint StateValue).
Local Abbreviation Prepare_process :=
  (Prepare_process Time zeroTime time_Parse ParseUint StateValue).

(** What a request filter built by the second half of [Prepare] holds. *)
Lemma Prepare_process_inr (filters : gmap string string) r :
  Prepare_process filters = inr r →
  Type_ _ r = filterValue filters "type"
  ∧ User _ r = filterValue filters "user"
  ∧ (if decide (0 < String.length (filterValue filters "states"))%nat
     then Prepare_states StateValue (Split (filterValue filters "states") ","%char) []
          = inr (States _ r)
     else States _ r = [])
  ∧ Prepare_time Time zeroTime time_Parse (filterValue filters "since")
    = inr (Since _ r)
  ∧ Prepare_time Time zeroTime time_Parse (filterValue filters "until")
    = inr (Until _ r)
  ∧ (if decide (filterValue filters "limit" = EmptyString)
     then Limit _ r = findLimitDefault
     else ParseUint (filterValue filters "limit") = Some (Limit _ r))
  ∧ (if decide (filterValue filters "offset" ≠ EmptyString)
     then ParseUint (filterValue filters "offset") = Some (Offset _ r)
     else Offset _ r = 0%N).
Proof.
  unfold cmd.Prepare_process.
  destruct (if decide (0 < String.length (filterValue filters "states"))%nat
            then _ else _) as [?|states] eqn:Hstates; [done|].
  destruct (Prepare_time _ _ _ (filterValue filters "since")) as [?|since]; [done|].
  destruct (Prepare_time _ _ _ (filterValue filters "until")) as [?|until]; [done|].
  destruct (if decide (filterValue filters "limit" = EmptyString)
            then _ else _) as [?|limit] eqn:Hlimit; [done|].
  destruct (if decide (filterValue filters "offset" ≠ EmptyString)
            then _ else _) as [?|offset] eqn:Hoffset; [done|].
  intros [= <-]. simpl. split_and!; try done.
  - destruct (decide (0 < String.length (filterValue filters "states"))%nat);
      by simplify_eq.
  - destruct (decide (filterValue filters "limit" = EmptyString));
      [by simplify_eq|].
    destruct (ParseUint (filterValue filters "limit")); by simplify_eq.
  - destruct (decide (filterValue filters "offset" ≠ EmptyString));
      [|by simplify_eq].
    destruct (ParseUint (filterValue filters "offset")); by simplify_eq.
Qed.

Lemma Prepare_inr (args : list string) r :
  Prepare args = inr r →
  ∃ m, Prepare_parse args ∅ = inr m ∧ Prepare_process m = inr r.
Proof.
  unfold cmd.Prepare. destruct (Prepare_parse args ∅) as [?|m]; [done|]. eauto.
Qed.

(** The value the map holds for a filter: the text after '=' of the
    argument that names it, or nothing. *)
Lemma filterValue_given (args : list string) m (filter value : string) :
  Prepare_parse args ∅ = inr m →
  String.append filter (String "="%char value) ∈ args →
  cut "="%char (String.append filter (String "="%char value)) = Some (filter, value) →
  filterValue m filter = value.
Proof.
  intros Hparse Hin Hcut. unfold filterValue.
  rewrite (proj2 (Prepare_parse_lookup _ _ _ filter value Hparse)); [done|].
  left. eauto.
Qed.

Lemma filterValue_absent (args : list string) m (filter : string) :
  Prepare_parse args ∅ = inr m →
  filter ∉ namedFilters args →
  filterValue m filter = EmptyString.
Proof.
  intros Hparse Hnotin. unfold filterValue.
  destruct (m !! filter) as [v|] eqn:Hv; [|done]. exfalso.
  apply (Prepare_parse_lookup _ _ _ filter v Hparse) in Hv
    as [(arg & Hin & Hcut)|Hv]; [|by rewrite lookup_empty in Hv].
  apply Hnotin. unfold namedFilters. apply list_elem_of_omap.
  exists arg. split; [done | by apply (filterName_cut _ _ v)].
Qed.

(** X20. The order of the arguments of [find] does not matter: arguments
    that [Prepare] accepts are accepted in any other order, with the same
    request filter; and arguments rejected by the parse loop are rejected
    by it in any other order. *)
Theorem Prepare_order_irrelevant (args args' : list string) :
  args ≡ₚ args' →
  (∀ r, Prepare args = inr r → Prepare args' = inr r)
  ∧ ((∃ e, Prepare args = inl e ∧ isParseError e) →
     ∃ e', Prepare args' = inl e' ∧ isParseError e').
Proof.
  intros Hperm. split.
  - intros r (m & Hparse & Hprocess)%Prepare_inr.
    unfold cmd.Prepare. by rewrite (Prepare_parse_Permutation _ _ _ Hperm Hparse).
  - intros (e & Hprepare & He). unfold cmd.Prepare in *.
    destruct (Prepare_parse args ∅) as [e0|m] eqn:Hparse.
    + destruct (Prepare_parse args' ∅) as [e'|m'] eqn:Hparse'.
      * exists e'. split; [done|].
        pose proof (Prepare_parse_rejects args' ∅ []) as Hrej.
        rewrite Hparse' in Hrej. apply Hrej. intros f. rewrite lookup_empty.
        split; [by intros ?%is_Some_None | by intros (? & ?%elem_of_nil & _)].
      * symmetry in Hperm.
        by rewrite (Prepare_parse_Permutation _ _ _ Hperm Hparse') in Hparse.
    + by apply Prepare_process_error in Hprepare.
Qed.

(** X21. The request filter [Prepare] builds holds what the arguments
    give: the text after [type=] and after [user=] as they are, the number
    [strconv.ParseUint] reads after [limit=] and after [offset=]; a filter
    that is not given, or given with nothing after '=', leaves the type and
    the user empty, the limit at 10 and the offset at 0. *)
Theorem Prepare_carries_values (args : list string) r :
  Prepare args = inr r →
  (∀ v, String.append "type=" v ∈ args → Type_ _ r = v)
  ∧ (∀ v, String.append "user=" v ∈ args → User _ r = v)
  ∧ (∀ v, String.append "limit=" v ∈ args → v ≠ EmptyString →
          ParseUint v = Some (Limit _ r))
  ∧ (∀ v, String.append "offset=" v ∈ args → v ≠ EmptyString →
          ParseUint v = Some (Offset _ r))
  ∧ ("type" ∉ namedFilters args → Type_ _ r = EmptyString)
  ∧ ("user" ∉ namedFilters args → User _ r = EmptyString)
  ∧ ("limit" ∉ namedFilters args ∨ "limit=" ∈ args → Limit _ r = 10%N)
  ∧ ("offset" ∉ namedFilters args ∨ "offset=" ∈ args → Offset _ r = 0%N).
Proof.
  intros (m & Hparse & Hprocess)%Prepare_inr.
  destruct (Prepare_process_inr m r Hprocess)
    as (Htype & Huser & _ & _ & _ & Hlimit & Hoffset).
  split_and!.
  - intros v Hin. rewrite Htype.
    by apply (filterValue_given args m "type" v Hparse Hin).
  - intros v Hin. rewrite Huser.
    by apply (filterValue_given args m "user" v Hparse Hin).
  - intros v Hin Hv.
    rewrite (filterValue_given args m "limit" v Hparse Hin eq_refl) in Hlimit.
    by rewrite decide_False in Hlimit.
  - intros v Hin Hv.
    rewrite (filterValue_given args m "offset" v Hparse Hin eq_refl) in Hoffset.
    by rewrite decide_True in Hoffset.
  - intros Hnotin. by rewrite Htype, (filterValue_absent args m "type" Hparse).
  - intros Hnotin. by rewrite Huser, (filterValue_absent args m "user" Hparse).
  - intros [Hnotin|Hin].
    + by rewrite (filterValue_absent args m "limit" Hparse) in Hlimit.
    + by rewrite (filterValue_given args m "limit" "" Hparse Hin eq_refl) in Hlimit.
  - intros [Hnotin|Hin].
    + by rewrite (filterValue_absent args m "offset" Hparse) in Hoffset.
    + by rewrite (filterValue_given args m "offset" "" Hparse Hin eq_refl) in Hoffset.
Qed.

End find_values.

Lemma Prepare_order_irrelevant_witness :
  let Prepare := cmd.Prepare unit tt (λ _ _, None) (λ _, Some 5%N) ∅ in
  Prepare ["limit=5"; "type=x"]
  = inr (cmd.mkRequestFilter unit "x" [] "" tt tt 5%N 0%N).
Proof.
  apply (Prepare_order_irrelevant unit tt (λ _ _, None) (λ _, Some 5%N) ∅
           ["type=x"; "limit=5"]).
  - apply Permutation_swap.
  - reflexivity.
Defined.

Lemma Prepare_carries_values_witness :
  let r := cmd.mkRequestFilter unit "x" [] "" tt tt 5%N 0%N in
  cmd.Prepare unit tt (λ _ _, None) (λ _, Some 5%N) ∅ ["type=x"; "limit=5"] = inr r
  ∧ cmd.Type_ _ r = "x"
  ∧ cmd.Offset _ r = 0%N.
Proof.
  intros r.
  destruct (Prepare_carries_values unit tt (λ _ _, None) (λ _, Some 5%N) ∅
              ["type=x"; "limit=5"] r)
    as (Htype & _ & _ & _ & _ & _ & _ & Hoffset); [reflexivity|].
  split_and!.
  - reflexivity.
  - apply Htype. by left.
  - apply Hoffset. left. apply (bool_decide_unpack _). vm_compute. exact I.
Defined.

Section find_states.
Import cmd.
Variable StateValue : gmap string Byte.byte.

Lemma Prepare_states_inr (names : list string) :
  ∀ states vals,
    Prepare_states StateValue names states = inr vals ↔
    ∃ found, Forall2 (λ name val, StateValue !! name = Some val) names found
             ∧ vals = states ++ found.
Proof.
  induction names as [|state rest IH]; intros states vals; simpl.
  - split.
    + intros [= <-]. exists []. split; [constructor | by rewrite app_nil_r].
    + intros (found & ->%Forall2_nil_inv_l & ->). by rewrite app_nil_r.
  - destruct (StateValue !! state) as [val|] eqn:Hval.
    + rewrite IH. split.
      * intros (found & Hall & ->). exists (val :: found).
        split; [by constructor | by rewrite <- app_assoc].
      * intros (found & Hall & ->).
        apply Forall2_cons_inv_l in Hall as (val' & found' & Hval' & Hall & ->).
        exists found'. split; [done|]. rewrite <- app_assoc. simpl. congruence.
    + split; [done|]. intros (found & Hall & _).
      apply Forall2_cons_inv_l in Hall as (val' & found' & Hval' & _). congruence.
Qed.

Lemma Prepare_states_inl (names : list string) :
  ∀ states e,
    Prepare_states StateValue names states = inl e ↔
    ∃ i name, names !! i = Some name
              ∧ StateValue !! name = None
              ∧ e = InvalidState name
              ∧ Forall (λ name', is_Some (StateValue !! name')) (take i names).
Proof.
  induction names as [|state rest IH]; intros states e; simpl.
  - split; [done | by intros (? & ? & ? & _)].
  - destruct (StateValue !! state) as [val|] eqn:Hval.
    + rewrite IH. split.
      * intros (i & name & Hi & Hnone & -> & Hknown).
        exists (Datatypes.S i), name. split_and!; try done. simpl.
        constructor; [by rewrite Hval | done].
      * intros ([|i] & name & Hi & Hnone & -> & Hknown); simpl in *.
        -- simplify_eq.
        -- apply Forall_cons_1 in Hknown as [_ Hknown]. eauto 10.
    + split.
      * intros [= <-]. exists 0, state. by split_and!.
      * intros ([|i] & name & Hi & Hnone & -> & Hknown); simpl in *.
        -- by simplify_eq.
        -- apply Forall_cons_1 in Hknown as [[? Hsome] _]. congruence.
Qed.

(** X22. The loop over the names given with [states=] resolves every name
    through [proto.StateValue], keeping their order; it fails exactly when
    a name is not in the table, and the error then names the first such
    name. *)
Theorem Prepare_states_resolves (names : list string) :
  (∀ vals, Prepare_states StateValue names [] = inr vals ↔
           Forall2 (λ name val, StateValue !! name = Some val) names vals)
  ∧ (∀ e, Prepare_states StateValue names [] = inl e ↔
          ∃ i name, names !! i = Some name
                    ∧ StateValue !! name = None
                    ∧ e = InvalidState name
                    ∧ Forall (λ name', is_Some (StateValue !! name')) (take i names)).
Proof.
  split.
  - intros vals. rewrite Prepare_states_inr. simpl. split.
    + by intros (found & Hall & ->).
    + intros Hall. eauto.
  - intros e. apply Prepare_states_inl.
Qed.

End find_states.

Section find_first_error.
Import cmd.

(** The error of the parse loop is about the first argument that does not
    pass or repeats a filter: [seen] lists the filters held when the loop
    starts. *)
Lemma Prepare_parse_inl (args : list string) :
  ∀ filters seen e,
    (∀ filter, is_Some (filters !! filter) ↔ filter ∈ seen) →
    Prepare_parse args filters = inl e →
    ∃ i arg,
      args !! i = Some arg
      ∧ Forall passes (take i args)
      ∧ match e with
        | InvalidCommandArg arg' produced =>
            arg' = arg ∧ produced = 1 ∧ filterName arg = None
        | InvalidFilter filter =>
            filterName arg = Some filter ∧ filter ∉ filterNames
        | FilterSpecifiedMultipleTimes filter =>
            filterName arg = Some filter ∧ filter ∈ filterNames
            ∧ filter ∈ seen ++ namedFilters (take i args)
        | _ => False
        end.
Proof.
  induction args as [|arg rest IH]; intros filters seen e Hseen; simpl; [done|].
  unfold SplitN_2. destruct (cut "="%char arg) as [[filter value]|] eqn:Hcut; simpl.
  - pose proof (filterName_cut _ _ _ Hcut) as Hname.
    destruct (default false (validFilters !! filter)) eqn:Hvalid; simpl.
    + apply validFilters_true in Hvalid. case_decide as Hheld.
      * intros [= <-]. exists 0, arg. split_and!; try done.
        simpl. rewrite app_nil_r. by apply Hseen.
      * intros Hparse.
        destruct (IH (<[filter := value]> filters) (seen ++ [filter]) e)
          as (i & arg' & Hi & Hpass & He); [|done|].
        { intros f. rewrite lookup_insert_is_Some, elem_of_app, list_elem_of_singleton,
            (Hseen f). split.
          - intros [<- | [_ ?]]; auto.
          - intros [? | ->]; [|by left].
            destruct (decide (filter = f)); [by left | by right]. }
        exists (Datatypes.S i), arg'. split_and!; try done.
        -- simpl. constructor; [by exists filter | done].
        -- destruct e; try done. destruct He as (? & ? & Hin).
           split_and!; try done. simpl. unfold namedFilters in *. csimpl.
           rewrite Hname. simpl. by rewrite <- app_assoc in Hin.
    + intros [= <-]. exists 0, arg. split_and!; try done.
      rewrite <- validFilters_true. by rewrite Hvalid.
  - intros [= <-]. exists 0, arg. split_and!; try done.
    unfold filterName. by rewrite Hcut.
Qed.

Section Prepare.
Variable Time : Type.
Variable zeroTime : Time.
Variable time_Parse : string → string → option Time.
Variable ParseUint : string → option N.
Variable StateValue : gmap string Byte.byte.

(** X23. When [Prepare] returns one of the three errors of its parse loop,
    the error is about the first offending argument: every argument before
    it splits on '=' and names a recognized filter; the argument itself
    has no '=' (and the split produced one value), or names an
    unrecognized filter, or names a recognized filter that an argument
    before it names. *)
Theorem Prepare_reports_first_offender (args : list string) e :
  Prepare Time zeroTime time_Parse ParseUint StateValue args = inl e →
  isParseError e →
  ∃ i arg,
    args !! i = Some arg
    ∧ Forall passes (take i args)
    ∧ match e with
      | InvalidCommandArg arg' produced =>
          arg' = arg ∧ produced = 1 ∧ filterName arg = None
      | InvalidFilter filter =>
          filterName arg = Some filter ∧ filter ∉ filterNames
      | FilterSpecifiedMultipleTimes filter =>
          filterName arg = Some filter ∧ filter ∈ filterNames
          ∧ filter ∈ namedFilters (take i args)
      | _ => False
      end.
Proof.
  unfold Prepare. intros Hprepare He.
  destruct (Prepare_parse args ∅) as [e0|m] eqn:Hparse.
  - injection Hprepare as ->.
    apply (Prepare_parse_inl args ∅ []) in Hparse; [done|].
    intros f. rewrite lookup_empty. split; [by intros ?%is_Some_None|].
    by intros ?%elem_of_nil.
  - by apply Prepare_process_error in Hprepare.
Qed.

End Prepare.

Lemma Prepare_reports_first_offender_witness :
  ∃ i arg,
    ["type=x"; "user"; "type=y"] !! i = Some arg
    ∧ Forall passes (take i ["type=x"; "user"; "type=y"])
    ∧ arg = "user" ∧ filterName arg = None.
Proof.
  destruct (Prepare_reports_first_offender unit tt (λ _ _, None) (λ _, None) ∅
              ["type=x"; "user"; "type=y"] (InvalidCommandArg "user" 1))
    as (i & arg & Hi & Hpass & Harg & _ & Hname); [reflexivity | exact I |].
  exists i, arg. by split_and!.
Defined.

End find_first_error.

Section find_times.
Import cmd.
Variable Time : Type.
Variable zeroTime : Time.
Variable time_Parse : string → string → option Time.
Variable ParseUint : string → option N.
Variable StateValue : gmap string Byte.byte.

(** X24. A time given with [since=] or [until=] is checked before it is
    parsed: unless the first "UTC" in it starts at byte 20, [Prepare]
    returns the error about the place of "UTC" whatever [time.Parse] would
    say; a request filter is built only when [time.Parse] accepts the text,
    and holds the time it returns; without the argument, or with nothing
    after '=', it holds the zero time. *)
Theorem Prepare_checks_times (args : list string) :
  findUtcIndex = 20%Z
  ∧ (∀ v, v ≠ EmptyString → Index v "UTC" ≠ 20%Z →
          Prepare_time Time zeroTime time_Parse v = inl (InvalidTimeUTC v))
  ∧ (∀ r, Prepare Time zeroTime time_Parse ParseUint StateValue args = inr r →
          (∀ v, String.append "since=" v ∈ args → v ≠ EmptyString →
                Index v "UTC" = 20%Z
                ∧ time_Parse findTimeFmtStr v = Some (Since _ r))
          ∧ (∀ v, String.append "until=" v ∈ args → v ≠ EmptyString →
                  Index v "UTC" = 20%Z
                  ∧ time_Parse findTimeFmtStr v = Some (Until _ r))
          ∧ ("since" ∉ namedFilters args ∨ "since=" ∈ args → Since _ r = zeroTime)
          ∧ ("until" ∉ namedFilters args ∨ "until=" ∈ args → Until _ r = zeroTime)).
Proof.
  assert (Hutc : findUtcIndex = 20%Z) by reflexivity.
  assert (Htime : ∀ v t, v ≠ EmptyString →
            Prepare_time Time zeroTime time_Parse v = inr t →
            Index v "UTC" = 20%Z ∧ time_Parse findTimeFmtStr v = Some t).
  { intros v t Hv. unfold Prepare_time. rewrite decide_True by done.
    rewrite Hutc. case_decide as Hindex; [done|].
    destruct (time_Parse findTimeFmtStr v); [|done]. by intros [= <-]. }
  split_and!; [done | |].
  - intros v Hv Hindex. unfold Prepare_time. rewrite decide_True by done.
    rewrite Hutc. by rewrite decide_True.
  - intros r (m & Hparse & Hprocess)%Prepare_inr.
    destruct (Prepare_process_inr _ _ _ _ _ m r Hprocess)
      as (_ & _ & _ & Hsince & Huntil & _).
    split_and!.
    + intros v Hin Hv. apply Htime; [done|].
      by rewrite (filterValue_given args m "since" v Hparse Hin eq_refl) in Hsince.
    + intros v Hin Hv. apply Htime; [done|].
      by rewrite (filterValue_given args m "until" v Hparse Hin eq_refl) in Huntil.
    + intros Hnone.
      assert (Hempty : filterValue m "since" = EmptyString).
      { destruct Hnone as [Hnotin|Hin].
        - by apply (filterValue_absent args).
        - by apply (filterValue_given args m "since" "" Hparse Hin). }
      rewrite Hempty in Hsince. by injection Hsince.
    + intros Hnone.
      assert (Hempty : filterValue m "until" = EmptyString).
      { destruct Hnone as [Hnotin|Hin].
        - by apply (filterValue_absent args).
        - by apply (filterValue_given args m "until" "" Hparse Hin). }
      rewrite Hempty in Huntil. by injection Huntil.
Qed.

End find_times.

Lemma Prepare_checks_times_witness :
  cmd.Prepare_time unit tt (λ _ _, Some tt) "2020-01-01 00:00:00"
  = inl (cmd.InvalidTimeUTC "2020-01-01 00:00:00")
  ∧ cmd.Index "2020-01-01 00:00:00 UTC" "UTC" = 20%Z.
Proof.
  destruct (Prepare_checks_times unit tt (λ _ _, Some tt) (λ _, None) ∅
              ["since=2020-01-01 00:00:00 UTC"]) as (_ & Hplace & Hbuilt).
  split.
  - apply Hplace; [discriminate | vm_compute; discriminate].
  - destruct (Hbuilt (cmd.mkRequestFilter unit "" [] "" tt tt 10%N 0%N))
      as (Hsince & _); [reflexivity|].
    apply Hsince; [by left | discriminate].
Defined.
